(** * ENVITranslator: chunking, retry and reassembly pipeline

    A shallow embedding of [src/envi_translator/translator.py] and of the
    batch endpoint of [src/main.py], with theorems about the segmenter
    ([_chunk_text]), the retrying invoker ([_retry_translate]), the
    format-preserving orchestrator ([translate_text]), language
    normalisation ([_normalize_lang]) and [translate_batch].

    Modelling conventions
    - A Python [str] is a sequence of Unicode code points: [str := list N].
      [len] counts code points, as Python's [len] does.
    - A Python [int] is a [Z]; [max_chars] and [retries] may be zero or
      negative, and the code's behaviour there is modelled too.
    - A Python [float] is taken finite and given by its exact value, a
      rational ([Q]).  The product [backoff * 2 ** (attempt - 1)] scales a
      float by a power of two, which is exact until the result leaves the
      range of floats; the conversion of the [int] to a float, an infinite
      product and the limits of [time.sleep] are modelled (see
      [float_mul_pow2] and [time_sleep]).
    - A raised exception is a value of type [exn]; fallible pure code
      returns [res], effectful code is a function of the [world]. *)

From Stdlib Require Import String Ascii.
From Stdlib Require Import List ZArith NArith QArith Bool Lia.
Import ListNotations.

Set Implicit Arguments.

Local Open Scope Z_scope.

(** ** Strings *)

Definition char := N.
Definition str := list char.

(** An ASCII literal as a Python string. *)
Definition lit (s : string) : str := map N_of_ascii (list_ascii_of_string s).

Arguments lit s%_string.

Definition len (A : Type) (l : list A) : Z := Z.of_nat (length l).

Definition SPACE : char := 32%N.
Definition LF : char := 10%N.
Definition CR : char := 13%N.

Definition str_eqb (a b : str) : bool :=
  if list_eq_dec N.eq_dec a b then true else false.

Definition is_empty (A : Type) (l : list A) : bool :=
  match l with [] => true | _ :: _ => false end.

(** [str.isspace] on one code point (CPython's [_PyUnicode_IsWhitespace]);
    this is also what [\s] matches in a [str] pattern. *)
Definition isspace (c : char) : bool :=
  ((9 <=? c) && (c <=? 13) || (28 <=? c) && (c <=? 32)
   || (c =? 133) || (c =? 160) || (c =? 5760)
   || (8192 <=? c) && (c <=? 8202)
   || (c =? 8232) || (c =? 8233) || (c =? 8239) || (c =? 8287)
   || (c =? 12288))%N.

(** The line boundaries of [str.splitlines] (CPython's
    [_PyUnicode_IsLinebreak]). *)
Definition is_linebreak (c : char) : bool :=
  ((10 <=? c) && (c <=? 13) || (28 <=? c) && (c <=? 30)
   || (c =? 133) || (c =? 8232) || (c =? 8233))%N.

(** The character class of the sentence pattern:
    [. ! ?], U+2026, U+3002, U+FF01, U+FF1F. *)
Definition is_terminator (c : char) : bool :=
  ((c =? 46) || (c =? 33) || (c =? 63)
   || (c =? 8230) || (c =? 12290) || (c =? 65281) || (c =? 65311))%N.

(** [s.endswith(suffix)] *)
Definition endswith (s suffix : str) : bool :=
  (length suffix <=? length s)%nat
  && str_eqb (skipn (length s - length suffix) s) suffix.

(** [s.strip()] with no argument. *)
Fixpoint lstrip (s : str) : str :=
  match s with
  | c :: rest => if isspace c then lstrip rest else s
  | [] => []
  end.

Definition rstrip (s : str) : str := rev (lstrip (rev s)).

Definition strip (s : str) : str := rstrip (lstrip s).

(** Prepend a character to the first piece of a list of pieces. *)
Definition cons_first (c : char) (pieces : list str) : list str :=
  match pieces with
  | [] => [[c]]
  | p :: ps => (c :: p) :: ps
  end.

(** [text.splitlines(keepends=True)]: a line ends after a line boundary,
    CR LF counting as one; no empty last line is produced. *)
Fixpoint splitlines (text : str) : list str :=
  match text with
  | [] => []
  | c :: rest =>
      if (c =? CR)%N then
        match rest with
        | c2 :: rest2 =>
            if (c2 =? LF)%N then [c; c2] :: splitlines rest2
            else [c] :: splitlines rest
        | [] => [[c]]
        end
      else if is_linebreak c then [c] :: splitlines rest
      else cons_first c (splitlines rest)
  end.

(** [s.split(" ")]: cut at every single space. *)
Fixpoint split_space (s : str) : list str :=
  match s with
  | [] => [[]]
  | c :: rest =>
      if (c =? SPACE)%N then [] :: split_space rest
      else cons_first c (split_space rest)
  end.

(** Where the scan of [re.split] stands: [AfterTerm] right after a
    terminator, [InMatch] inside a separator being consumed. *)
Inductive scan := Plain | AfterTerm | InMatch.

(** [re.split(r"(?<=[\.!?...])\s+", text)]: the separators are the maximal
    whitespace runs that directly follow a terminator; the pieces between
    them are returned, an empty last piece included. *)
Fixpoint re_split_from (st : scan) (text : str) : list str :=
  match text with
  | [] => [[]]
  | c :: rest =>
      if isspace c then
        match st with
        | InMatch => re_split_from InMatch rest
        | AfterTerm => [] :: re_split_from InMatch rest
        | Plain => cons_first c (re_split_from Plain rest)
        end
      else
        cons_first c
          (re_split_from (if is_terminator c then AfterTerm else Plain) rest)
  end.

Definition re_split_sentences (text : str) : list str :=
  re_split_from Plain text.

(** ** Exceptions and results *)

(** [ProviderError] stands for whatever the provider's [translate] raises
    (the code catches [Exception]); [ValueError] is the built-in raised by
    [range] with a zero step and by [time.sleep] with a negative delay;
    [OverflowError] is the built-in raised when an [int] does not convert
    to a float and by [time.sleep] with a delay it cannot represent.
    [ExhaustedRetriesError], [ConfigurationError] are the error kinds named
    in the specification; no path of the source constructs them.
    [HTTPException] is what the endpoints of [main.py] raise. *)
Inductive exn : Type :=
| ProviderError (code : nat)
| ValueError
| OverflowError
| ExhaustedRetriesError (last : exn)
| ConfigurationError
| HTTPException (status : Z) (detail : exn).

Inductive res (A : Type) : Type :=
| Ok (a : A)
| Raise (e : exn)
| OutOfFuel.

Arguments Ok {A} a.
Arguments Raise {A} e.
Arguments OutOfFuel {A}.

Definition res_bind (A B : Type) (r : res A) (k : A -> res B) : res B :=
  match r with
  | Ok a => k a
  | Raise e => Raise e
  | OutOfFuel => OutOfFuel
  end.

(** ** The runtime's clock *)

(** Up to [SLEEP_SURE] seconds (about 46 days) [time.sleep] behaves alike
    on every runtime and platform: it sleeps, or raises [ValueError] if
    the delay is negative. *)
Definition SLEEP_SURE : Q := 4000000.

(** What [time.sleep] does with a finite delay beyond that depends on
    the version of the runtime, the platform and even the time since
    boot: it sleeps ([None]) or raises ([Some e]: [OverflowError] beyond
    about 9.2e9 seconds, elsewhere also [OSError] or [ValueError]).  That
    part is a parameter. *)
Class Runtime : Type := { long_sleep : Q -> option exn }.

(** The first power of two that is no float: [2 ** 1024]. *)
Definition FLOAT_LIMIT : Z := 2 ^ 1024.

(** [x * (2 ** e)] for a float [x] and an exponent [e >= 0], as the retry
    loop computes its delay: the [int] [2 ** e] is first converted to a
    float, which raises [OverflowError] from [2 ** 1024] on; the product
    itself is exact.  A result at or beyond [FLOAT_LIMIT] in absolute
    value stands for the infinite float that the product then is. *)
Definition float_mul_pow2 (x : Q) (e : Z) : res Q :=
  if 1024 <=? e then Raise OverflowError
  else Ok (x * inject_Z (2 ^ e))%Q.

(** The float is infinite. *)
Definition is_infinite (d : Q) : bool :=
  Qle_bool (inject_Z FLOAT_LIMIT) d || Qle_bool d (- inject_Z FLOAT_LIMIT).

(** ** Python built-ins used by the hard split *)

(** [range(start, stop, step)] as the list of its elements. *)
Definition py_range (start stop step : Z) : res (list Z) :=
  if step =? 0 then Raise ValueError
  else
    let n :=
      if 0 <? step then
        (if start <? stop then (stop - start - 1) / step + 1 else 0)
      else
        (if stop <? start then (start - stop - 1) / (- step) + 1 else 0) in
    Ok (map (fun k => start + Z.of_nat k * step) (seq 0 (Z.to_nat n))).

(** A slice bound brought into [0 .. n], negative bounds counting from
    the end. *)
Definition clamp_index (n i : Z) : Z :=
  let i := if i <? 0 then i + n else i in
  Z.max 0 (Z.min i n).

(** [s[lo:hi]] *)
Definition py_slice (s : str) (lo hi : Z) : str :=
  let a := clamp_index (len s) lo in
  let b := clamp_index (len s) hi in
  firstn (Z.to_nat (b - a)) (skipn (Z.to_nat a) s).

(** ** The segmenter: [ENVITranslator._chunk_text] *)

(** One iteration of the sentence loop; the state is [(chunks, buf)]. *)
Definition pack_sentence (max_chars : Z) (st : list str * str) (s : str)
  : list str * str :=
  let '(chunks, buf) := st in
  let s_with_space := if negb (endswith s [LF]) then s ++ [SPACE] else s in
  if is_empty buf then (chunks, s_with_space)
  else if len buf + len s_with_space <=? max_chars
       then (chunks, buf ++ s_with_space)
       else ((if negb (is_empty buf) then chunks ++ [buf] else chunks),
             s_with_space).

Definition sentence_pass (max_chars : Z) (text : str) : list str :=
  let '(chunks, buf) :=
    fold_left (pack_sentence max_chars) (re_split_sentences text) ([], []) in
  if negb (is_empty buf) then chunks ++ [buf] else chunks.

(** One iteration of the word loop; the state is [(refined, cur)]. *)
Definition pack_word (max_chars : Z) (st : list str * str) (w : str)
  : list str * str :=
  let '(refined, cur) := st in
  let seg := w ++ [SPACE] in
  if is_empty cur then (refined, seg)
  else if len cur + len seg <=? max_chars then (refined, cur ++ seg)
       else (refined ++ [cur], seg).

(** The body of the loop over [chunks]. *)
Definition refine_chunk (max_chars : Z) (refined : list str) (ch : str)
  : list str :=
  if len ch <=? max_chars then refined ++ [ch]
  else
    let '(refined', cur) :=
      fold_left (pack_word max_chars) (split_space ch) (refined, []) in
    if negb (is_empty cur) then refined' ++ [cur] else refined'.

Definition word_pass (max_chars : Z) (chunks : list str) : list str :=
  fold_left (refine_chunk max_chars) chunks [].

(** The loop over [refined]; [final] is the list built so far. *)
Fixpoint hard_split (max_chars : Z) (refined final : list str)
  : res (list str) :=
  match refined with
  | [] => Ok final
  | ch :: rest =>
      if len ch <=? max_chars then hard_split max_chars rest (final ++ [ch])
      else
        res_bind (py_range 0 (len ch) max_chars) (fun idxs =>
        hard_split max_chars rest
          (final ++ map (fun i => py_slice ch i (i + max_chars)) idxs))
  end.

Definition _chunk_text (text : str) (max_chars : Z) : res (list str) :=
  if len text <=? max_chars then Ok [text]
  else
    let chunks := sentence_pass max_chars text in
    let refined := word_pass max_chars chunks in
    hard_split max_chars refined [].

(** ** Effects: the provider, the clock and the world *)

(** One invocation of the provider's [translate]. *)
Record call : Type := Call {
  call_source : str;
  call_target : str;
  call_text : str
}.

(** What [GoogleTranslator] does is not part of the repository: its
    constructor, its [translate] and its language catalogue are
    parameters, each a fallible operation on the provider's own state.
    [str.lower] (Unicode's lower-case mapping, a table of the Python
    runtime) is a parameter as well. *)
Section Pipeline.

Context {runtime : Runtime}.
Variable P : Type.
Variable provider_new : str -> str -> P -> res unit * P.
Variable provider_translate : str -> str -> str -> P -> res str * P.
Variable provider_languages : P -> res (list (str * str)) * P.
Variable lower : str -> str.

(** The world the program runs in: the provider's state, the log of the
    invocations of [translate], the delays slept, and the number of times
    the language catalogue was read. *)
Record world : Type := World {
  remote : P;
  sent : list call;
  slept : list Q;
  catalog_reads : nat
}.

Definition M (A : Type) : Type := world -> res A * world.

Definition ret (A : Type) (a : A) : M A := fun w => (Ok a, w).

Definition raise (A : Type) (e : exn) : M A := fun w => (Raise e, w).

Definition out_of_fuel (A : Type) : M A := fun w => (OutOfFuel, w).

Arguments raise {A} e.
Arguments out_of_fuel {A}.

Definition bind (A B : Type) (m : M A) (k : A -> M B) : M B :=
  fun w =>
    match m w with
    | (Ok a, w') => k a w'
    | (Raise e, w') => (Raise e, w')
    | (OutOfFuel, w') => (OutOfFuel, w')
    end.

(** [try: m except Exception as e: h e] *)
Definition try_except (A : Type) (m : M A) (h : exn -> M A) : M A :=
  fun w =>
    match m w with
    | (Raise e, w') => h e w'
    | other => other
    end.

Definition lift (A : Type) (r : res A) : M A := fun w => (r, w).

Notation "x <- m ;; k" := (bind m (fun x => k))
  (at level 61, m at next level, right associativity).
Notation "m ;;; k" := (bind m (fun _ => k))
  (at level 61, right associativity).

(** A loop that appends one result per element. *)
Fixpoint for_each (A B : Type) (body : A -> M B) (l : list A) : M (list B) :=
  match l with
  | [] => ret []
  | a :: rest =>
      b <- body a ;;
      bs <- for_each body rest ;;
      ret (b :: bs)
  end.

(** [self._translator.translate(text)], logged. *)
Definition translator_translate (src tgt text : str) : M str :=
  fun w =>
    let '(r, p) := provider_translate src tgt text (remote w) in
    (r, World p (sent w ++ [Call src tgt text]) (slept w) (catalog_reads w)).

(** [GoogleTranslator(source=src, target=tgt)] *)
Definition translator_new (src tgt : str) : M unit :=
  fun w =>
    let '(r, p) := provider_new src tgt (remote w) in
    (r, World p (sent w) (slept w) (catalog_reads w)).

(** [GoogleTranslator.get_supported_languages(as_dict=True)], counted. *)
Definition get_supported_languages : M (list (str * str)) :=
  fun w =>
    let '(r, p) := provider_languages (remote w) in
    (r, World p (sent w) (slept w) (S (catalog_reads w))).

(** [time.sleep(d)]: an infinite delay raises [OverflowError]; a delay
    of at most [SLEEP_SURE] seconds in absolute value is slept, or raises
    [ValueError] if negative; for any other the runtime decides. *)
Definition time_sleep (d : Q) : M unit :=
  fun w =>
    let asleep :=
      (Ok tt, World (remote w) (sent w) (slept w ++ [d]) (catalog_reads w)) in
    if is_infinite d then (Raise OverflowError, w)
    else if Qle_bool (- SLEEP_SURE) d && Qle_bool d SLEEP_SURE then
      (if Qle_bool 0 d then asleep else (Raise ValueError, w))
    else
      match long_sleep d with
      | None => asleep
      | Some e => (Raise e, w)
      end.

(** ** The translator object *)

Record ENVITranslator : Type := Translator {
  source : str;
  target : str
}.

(** ** The retrying invoker: [ENVITranslator._retry_translate] *)

(** The [while True] loop, entered with [attempt] failures so far.  Each
    iteration that loops back uses one unit of [fuel]. *)
Fixpoint retry_loop (fuel : nat) (self : ENVITranslator) (text : str)
    (retries : Z) (backoff : Q) (attempt : Z) : M str :=
  try_except (translator_translate (source self) (target self) text)
    (fun e =>
       let attempt := attempt + 1 in
       if attempt >? retries then raise e
       else
         d <- lift (float_mul_pow2 backoff (attempt - 1)) ;;
         time_sleep d ;;;
         match fuel with
         | O => out_of_fuel
         | S fuel' => retry_loop fuel' self text retries backoff attempt
         end).

(** The loop runs at most [retries] times round, so that much fuel is
    enough (see [retry_loop_fuel]). *)
Definition _retry_translate (self : ENVITranslator) (text : str)
    (retries : Z) (backoff : Q) : M str :=
  retry_loop (Z.to_nat retries) self text retries backoff 0.

(** ** The orchestrator: [ENVITranslator.translate_text] *)

(** The body of the loop over [lines]: what is appended to [out]. *)
Definition translate_line (self : ENVITranslator) (max_chars retries : Z)
    (backoff : Q) (line : str) : M str :=
  if is_empty (strip line) then ret line
  else
    chunks <- lift (_chunk_text line max_chars) ;;
    translated_chunks <-
      for_each (fun chunk => _retry_translate self chunk retries backoff)
        chunks ;;
    ret (concat translated_chunks).

Definition translate_text (self : ENVITranslator) (text : str)
    (preserve_format : bool) (max_chars retries : Z) (retry_backoff_sec : Q)
  : M str :=
  if is_empty text then ret []
  else if negb preserve_format
  then _retry_translate self text retries retry_backoff_sec
  else
    let lines := splitlines text in
    out <- for_each (translate_line self max_chars retries retry_backoff_sec)
             lines ;;
    ret (concat out).

(** ** Language normalisation: [ENVITranslator._normalize_lang] *)

(** A [dict] built from pairs in order: a later pair with the same key
    replaces the earlier one. *)
Fixpoint dict_get (A : Type) (d : list (str * A)) (key : str) : option A :=
  match d with
  | [] => None
  | (k, v) :: rest =>
      match dict_get rest key with
      | Some v' => Some v'
      | None => if str_eqb k key then Some v else None
      end
  end.

(** [s.replace("_", "-")] *)
Definition replace_underscore (s : str) : str :=
  map (fun c => if (c =? 95)%N then 45%N else c) s.

Definition alias : list (str * str) :=
  [ (lit "zh-cn", lit "zh-CN"); (lit "zh-tw", lit "zh-TW");
    (lit "pt-br", lit "pt"); (lit "pt-pt", lit "pt") ].

Definition _normalize_lang (lang : str) : M str :=
  if is_empty lang then ret (lit "auto")
  else if str_eqb (lower lang) (lit "auto") then ret (lit "auto")
  else
    mapping <- try_except get_supported_languages (fun _ => ret []) ;;
    let name_to_code :=
      map (fun nc : str * str => (lower (fst nc), snd nc)) mapping in
    let codes :=
      map (fun nc : str * str => (lower (snd nc), snd nc)) mapping in
    let key := replace_underscore (strip (lower lang)) in
    match dict_get codes key with
    | Some code => ret code
    | None =>
        match dict_get name_to_code key with
        | Some code => ret code
        | None =>
            match dict_get alias key with
            | Some code => ret code
            | None => ret lang
            end
        end
    end.

(** [ENVITranslator.__init__] *)
Definition ENVITranslator_init (src tgt : str) : M ENVITranslator :=
  norm_source <- _normalize_lang src ;;
  norm_target <- _normalize_lang tgt ;;
  translator_new norm_source norm_target ;;;
  ret (Translator norm_source norm_target).

(** ** The batch endpoint: [translate_batch] of [main.py] *)

Record BatchTranslateItem : Type := Item {
  item_text : str;
  item_source : str;
  item_target : str
}.

Record BatchTranslateRequest : Type := Batch {
  items : list BatchTranslateItem;
  preserve_format : bool;
  max_chars : Z;
  retries : Z;
  retry_backoff_sec : Q
}.

(** The body of the loop over [req.items]. *)
Definition translate_item (req : BatchTranslateRequest)
    (it : BatchTranslateItem) : M str :=
  tr <- ENVITranslator_init (item_source it) (item_target it) ;;
  translate_text tr (item_text it) (preserve_format req) (max_chars req)
    (retries req) (retry_backoff_sec req).

(** One [try] around the whole loop; [detail] stands for [str(e)]. *)
Definition translate_batch (req : BatchTranslateRequest) : M (list str) :=
  try_except (for_each (translate_item req) (items req))
    (fun e => raise (HTTPException 500 e)).

End Pipeline.

Arguments raise {P A} e.
Arguments out_of_fuel {P A}.

(** ** The single-translation endpoint: [translate] of [main.py] *)

Record TranslateRequest : Type := Request {
  req_text : str;
  req_source : str;
  req_target : str;
  req_preserve_format : bool;
  req_max_chars : Z;
  req_retries : Z;
  req_retry_backoff_sec : Q
}.

Record TranslateResponse : Type := Response {
  translated : str;
  resp_source : str;
  resp_target : str
}.

(** The bounds declared on the fields of [TranslateRequest]:
    [max_chars] with [ge=100, le=5000], [retries] with [ge=0, le=10],
    [retry_backoff_sec] with [ge=0.0, le=10.0].  The framework builds no
    request object outside them. *)
Definition valid_request (req : TranslateRequest) : Prop :=
  100 <= req_max_chars req <= 5000
  /\ 0 <= req_retries req <= 10
  /\ (0 <= req_retry_backoff_sec req)%Q
  /\ (req_retry_backoff_sec req <= 10)%Q.

Section Endpoint.

Context {runtime : Runtime}.
Variable P : Type.
Variable provider_new : str -> str -> P -> res unit * P.
Variable provider_translate : str -> str -> str -> P -> res str * P.
Variable provider_languages : P -> res (list (str * str)) * P.
Variable lower : str -> str.

(** The body of the handler of [POST /translate]; [translate_get] has
    the same body on its query parameters.  The framework validates the
    fields before it calls the handler, so the body runs only on a request
    that satisfies [valid_request]: every statement about the endpoint
    assumes it. *)
Definition translate (req : TranslateRequest) : M P TranslateResponse :=
  try_except
    (bind (ENVITranslator_init provider_new provider_languages lower
             (req_source req) (req_target req)) (fun tr =>
     bind (translate_text provider_translate tr (req_text req)
             (req_preserve_format req) (req_max_chars req) (req_retries req)
             (req_retry_backoff_sec req)) (fun out =>
     ret (Response out (req_source req) (req_target req)))))
    (fun e => raise (HTTPException 500 e)).

(** An exception that came out of the provider: of its constructor or of
    its [translate]. *)
Definition from_provider (e : exn) : Prop :=
  (exists src tgt p, fst (provider_new src tgt p) = Raise e)
  \/ (exists src tgt text p, fst (provider_translate src tgt text p) = Raise e).

End Endpoint.

(** ** Stubs *)

(** A runtime that refuses every delay beyond [SLEEP_SURE]. *)
Definition strict_runtime : Runtime :=
  {| long_sleep := fun _ => Some OverflowError |}.


(** The no-op provider: every text translates to itself. *)
Definition identity_provider : str -> str -> str -> unit -> res str * unit :=
  fun _ _ text p => (Ok text, p).

(** A provider that raises on every call; its state counts the calls. *)
Definition raising_provider : str -> str -> str -> nat -> res str * nat :=
  fun _ _ _ n => (Raise (ProviderError n), S n).

(** A provider that fails its first [k] calls and succeeds afterwards;
    its state is the number of calls received, and the [n]-th failure
    (from 0) is [ProviderError n]. *)
Definition flaky_provider (k : nat)
  : str -> str -> str -> nat -> res str * nat :=
  fun _ _ text n =>
    (if (n <? k)%nat then Raise (ProviderError n) else Ok text, S n).

(** A provider that fails on one text only. *)
Definition picky_provider (bad : str)
  : str -> str -> str -> unit -> res str * unit :=
  fun _ _ text p =>
    (if str_eqb text bad then Raise (ProviderError 0) else Ok text, p).

(** A provider constructor that accepts every language pair. *)
Definition accepting_new (P : Type) : str -> str -> P -> res unit * P :=
  fun _ _ p => (Ok tt, p).

(** A fixed language catalogue. *)
Definition static_languages (P : Type) (catalog : list (str * str))
  : P -> res (list (str * str)) * P :=
  fun p => (Ok catalog, p).

(** Lower-casing of the ASCII letters, other code points unchanged. *)
Definition ascii_lower (s : str) : str :=
  map (fun c => if ((65 <=? c) && (c <=? 90))%N then (c + 32)%N else c) s.

(** The translator the constructor builds by default: ["auto"] to ["vi"]. *)
Definition auto_vi : ENVITranslator := Translator (lit "auto") (lit "vi").

(** The scenario of the specification: two lines of text around a blank
    line, each within the bound. *)
Definition two_paragraphs : str :=
  lit "Hello world." ++ [LF; LF] ++ lit "Goodbye." ++ [LF].


(** A line of two short sentences, ended by a line feed. *)
Definition two_sentences : str := lit "a. b" ++ [LF].

(** Three lines; [refused_line] is the second. *)
Definition refused_line : str := lit "x" ++ [LF].
Definition three_lines : str := lit "ok" ++ [LF] ++ refused_line ++ lit "z".

(** A provider whose catalogue call raises. *)
Definition failing_languages (P : Type)
  : P -> res (list (str * str)) * P :=
  fun p => (Raise (ProviderError 7), p).

(** The world before anything happened. *)
Definition fresh (P : Type) (p : P) : world P := World p [] [] 0.

(** ** The specification's reading of the unformatted mode

    Section 4.4 of the specification, for [preserveFormat = false]: run
    the whole document through the segmenter, translate each chunk with
    the retrying invoker and concatenate.  Stated here to be compared
    with [translate_text]. *)
Definition spec_translate_whole {runtime : Runtime} (P : Type)
    (provider_translate : str -> str -> str -> P -> res str * P)
    (self : ENVITranslator) (text : str) (max_chars retries : Z)
    (backoff : Q) : M P str :=
  bind (lift (_chunk_text text max_chars)) (fun chunks =>
  bind (for_each
          (fun chunk => _retry_translate provider_translate self chunk
                          retries backoff) chunks) (fun translated =>
  ret (concat translated))).

(** The delay slept after the failure number [i] (from 0):
    [backoff * 2 ** i]. *)
Definition delay (backoff : Q) (i : nat) : Q :=
  (backoff * inject_Z (2 ^ Z.of_nat i))%Q.

(** The world after some more invocations of the provider were logged. *)
Definition logged (P : Type) (w : world P) (calls : list call) : world P :=
  World (remote w) (sent w ++ calls) (slept w) (catalog_reads w).

(** A line consisting only of whitespace, in the specification's words;
    the code tests [not line.strip()] (see [strip_empty_blank]). *)
Definition is_blank (line : str) : bool := forallb isspace line.

Definition nonempty (s : str) : Prop := s <> [].

(** A single token: no whitespace in it. *)
Definition unbroken (token : str) : bool :=
  forallb (fun c => negb (isspace c)) token.

(** The first [n] consecutive blocks of [m] characters of [s]. *)
Definition blocks (m n : nat) (s : str) : list str :=
  map (fun k => firstn m (skipn (k * m) s)) (seq 0 n).

(** The invocations made for a list of lines that each fit in one chunk:
    one per line that is not blank. *)
Definition content_calls (self : ENVITranslator) (lines : list str)
  : list call :=
  map (Call (source self) (target self))
    (filter (fun line => negb (is_blank line)) lines).

(** [runs_ok body l w bs w']: the loop body succeeds on each element of
    [l] in turn, from world [w] to world [w'], with results [bs]. *)
Inductive runs_ok (P A B : Type) (body : A -> M P B)
  : list A -> world P -> list B -> world P -> Prop :=
| runs_nil : forall w, runs_ok body [] w [] w
| runs_cons : forall a l w b w1 bs w2,
    body a w = (Ok b, w1) ->
    runs_ok body l w1 bs w2 ->
    runs_ok body (a :: l) w (b :: bs) w2.

(** ** Vocabulary for the structure of the segmenter's output *)

(** A sentence as the sentence loop buffers it, [s_with_space] in the
    source. *)
Definition s_with_space (s : str) : str :=
  if negb (endswith s [LF]) then s ++ [SPACE] else s.

(** A word as the word loop buffers it, [seg] in the source. *)
Definition seg (w : str) : str := w ++ [SPACE].

(** The step the two packing loops have in common, on a piece already
    padded (see [pack_sentence_piece] and [pack_word_piece]). *)
Definition pack_piece (max_chars : Z) (st : list str * str) (piece : str)
  : list str * str :=
  let '(out, buf) := st in
  if is_empty buf then (out, piece)
  else if len buf + len piece <=? max_chars then (out, buf ++ piece)
       else (out ++ [buf], piece).

(** A group of pieces packed into one chunk: it is not empty, and it
    holds several pieces only if together they fit. *)
Definition packed_group (max_chars : Z) (g : list str) : Prop :=
  g <> [] /\ ((2 <= length g)%nat -> len (concat g) <= max_chars).

(** Consecutive groups are maximal: the first piece of a group would not
    have fitted at the end of the group before it. *)
Fixpoint greedy (max_chars : Z) (groups : list (list str)) : Prop :=
  match groups with
  | g1 :: ((g2 :: _) as rest) =>
      max_chars < len (concat g1) + len (hd [] g2) /\ greedy max_chars rest
  | _ => True
  end.

(** The characters of a string that are not whitespace, in order. *)
Definition letters (s : str) : str := filter (fun c => negb (isspace c)) s.

(** What the word pass and the hard split make of a chunk of the sentence
    pass, once concatenated: the chunk, with one space more if it was too
    long. *)
Definition pad (max_chars : Z) (ch : str) : str :=
  if len ch <=? max_chars then ch else ch ++ [SPACE].

(** ** Vocabulary for the orchestrator under a provider that answers *)

(** The chunks of a line; none if the segmenter raised. *)
Definition chunks_of (max_chars : Z) (line : str) : list str :=
  match _chunk_text line max_chars with
  | Ok chunks => chunks
  | _ => []
  end.

(** What a line becomes when the provider answers [f source target chunk]
    to every request. *)
Definition line_image (f : str -> str -> str -> str) (self : ENVITranslator)
    (max_chars : Z) (line : str) : str :=
  if is_blank line then line
  else concat (map (f (source self) (target self)) (chunks_of max_chars line)).

(** The requests made for a line: one per chunk, none for a blank line. *)
Definition line_calls (self : ENVITranslator) (max_chars : Z) (line : str)
  : list call :=
  if is_blank line then []
  else map (Call (source self) (target self)) (chunks_of max_chars line).

(** ** Vocabulary for language normalisation *)

(** The key under which [_normalize_lang] looks a language up:
    [lang.lower().strip().replace("_", "-")]. *)
Definition lookup_key (lower : str -> str) (lang : str) : str :=
  replace_underscore (strip (lower lang)).

(** What the three lookups of [_normalize_lang] and its fall-back return
    for a given catalogue. *)
Definition resolve (lower : str -> str) (mapping : list (str * str))
    (lang : str) : str :=
  match dict_get (map (fun nc : str * str => (lower (snd nc), snd nc)) mapping)
          (lookup_key lower lang) with
  | Some code => code
  | None =>
      match dict_get (map (fun nc : str * str => (lower (fst nc), snd nc))
                        mapping) (lookup_key lower lang) with
      | Some code => code
      | None =>
          match dict_get alias (lookup_key lower lang) with
          | Some code => code
          | None => lang
          end
      end
  end.

(** * Facts about the segmenter *)

Section SegmenterFacts.

Lemma len_nonneg (A : Type) (l : list A) : 0 <= len l.
Proof. unfold len. lia. Qed.

Lemma len_app (A : Type) (l1 l2 : list A) : len (l1 ++ l2) = len l1 + len l2.
Proof. unfold len. rewrite length_app. lia. Qed.

Lemma len_zero_nil (A : Type) (l : list A) : len l <= 0 -> l = [].
Proof. destruct l; [reflexivity | unfold len; simpl; lia]. Qed.

(** A slice [s[i : i + m]] taken at a non-negative index holds at most
    [m] characters. *)
Lemma py_slice_len_le (s : str) (i m : Z) :
  0 <= i -> 0 <= m -> len (py_slice s i (i + m)) <= m.
Proof.
  intros Hi Hm. unfold py_slice, clamp_index.
  pose proof (len_nonneg s) as Hs.
  destruct (i <? 0) eqn:E1; [apply Z.ltb_lt in E1; lia |].
  destruct (i + m <? 0) eqn:E2; [apply Z.ltb_lt in E2; lia |].
  unfold len at 1. rewrite length_firstn. lia.
Qed.

(** With a positive step [range] returns, and its elements are
    non-negative when it starts at 0. *)
Lemma py_range_pos (stop step : Z) :
  0 < step ->
  exists idxs, py_range 0 stop step = Ok idxs /\ Forall (fun i => 0 <= i) idxs.
Proof.
  intros Hstep. unfold py_range.
  destruct (step =? 0) eqn:E; [apply Z.eqb_eq in E; lia |].
  eexists. split; [reflexivity |].
  apply Forall_forall. intros i Hin. apply in_map_iff in Hin.
  destruct Hin as [k [Hk _]]. subst i. nia.
Qed.

(** With a negative step and [0 <= stop] the range is empty. *)
Lemma py_range_neg (stop step : Z) :
  step < 0 -> 0 <= stop -> py_range 0 stop step = Ok [].
Proof.
  intros Hstep Hstop. unfold py_range.
  destruct (step =? 0) eqn:E; [apply Z.eqb_eq in E; lia |].
  destruct (0 <? step) eqn:E1; [apply Z.ltb_lt in E1; lia |].
  destruct (stop <? 0) eqn:E2; [apply Z.ltb_lt in E2; lia |].
  reflexivity.
Qed.

(** The hard split only adds pieces within the bound. *)
Lemma hard_split_bound (m : Z) :
  1 <= m ->
  forall refined final,
    Forall (fun c => len c <= m) final ->
    exists out, hard_split m refined final = Ok out
                /\ Forall (fun c => len c <= m) out.
Proof.
  intros Hm. induction refined as [| ch rest IH]; intros final Hfinal; simpl.
  - exists final. split; [reflexivity | assumption].
  - destruct (len ch <=? m) eqn:E.
    + apply IH. apply Forall_app. split; [assumption |].
      constructor; [apply Z.leb_le; assumption | constructor].
    + destruct (@py_range_pos (len ch) m) as [idxs [Hr Hpos]]; [lia |].
      rewrite Hr. simpl. apply IH. apply Forall_app. split; [assumption |].
      apply Forall_forall. intros c Hin. apply in_map_iff in Hin.
      destruct Hin as [i [Hc Hi]]. subst c.
      apply py_slice_len_le; [| lia].
      rewrite Forall_forall in Hpos. apply Hpos. assumption.
Qed.

(** With a negative bound the hard split drops every piece. *)
Lemma hard_split_negative (m : Z) :
  m < 0 -> forall refined final, hard_split m refined final = Ok final.
Proof.
  intros Hm. induction refined as [| ch rest IH]; intros final; simpl.
  - reflexivity.
  - pose proof (len_nonneg ch) as Hch.
    destruct (len ch <=? m) eqn:E; [apply Z.leb_le in E; lia |].
    rewrite py_range_neg by lia. simpl. rewrite app_nil_r. apply IH.
Qed.

Lemma chunk_text_negative (m : Z) (text : str) :
  m < 0 -> _chunk_text text m = Ok [].
Proof.
  intros Hm. unfold _chunk_text. pose proof (len_nonneg text) as Ht.
  destruct (len text <=? m) eqn:E; [apply Z.leb_le in E; lia |].
  apply hard_split_negative. assumption.
Qed.

Lemma chunk_text_passthrough (text : str) (m : Z) :
  len text <= m -> _chunk_text text m = Ok [text].
Proof.
  intros H. unfold _chunk_text. apply Z.leb_le in H. rewrite H. reflexivity.
Qed.

(** C2. For every string [s] and every [max_chars >= 1], [_chunk_text]
    returns a list of chunks each of length at most [max_chars]; when
    [len s <= max_chars] that list is [[s]], the input unmodified. *)
Theorem chunk_text_size_bound (s : str) (max_chars : Z) :
  1 <= max_chars ->
  exists chunks,
    _chunk_text s max_chars = Ok chunks
    /\ Forall (fun c => len c <= max_chars) chunks
    /\ (len s <= max_chars -> chunks = [s]).
Proof.
  intros Hm. unfold _chunk_text. destruct (len s <=? max_chars) eqn:E.
  - exists [s]. apply Z.leb_le in E. repeat split.
    constructor; [assumption | constructor].
  - destruct (@hard_split_bound max_chars Hm
                (word_pass max_chars (sentence_pass max_chars s)) [])
      as [out [Hout Hb]]; [constructor |].
    exists out. repeat split; try assumption.
    intros Hle. apply Z.leb_gt in E. lia.
Qed.

Lemma chunk_text_size_bound_witness :
  exists chunks,
    _chunk_text (lit "Hello there. How are you? I am fine!") 12 = Ok chunks
    /\ Forall (fun c => len c <= 12) chunks
    /\ (len (lit "Hello there. How are you? I am fine!") <= 12 ->
        chunks = [lit "Hello there. How are you? I am fine!"]).
Proof.
  apply (@chunk_text_size_bound (lit "Hello there. How are you? I am fine!") 12).
  lia.
Defined.

(** *** An unbroken token *)

Lemma unbroken_cons (c : char) (rest : str) :
  unbroken (c :: rest) = true -> isspace c = false /\ unbroken rest = true.
Proof.
  unfold unbroken. simpl. intros H. apply andb_true_iff in H.
  destruct H as [Hc Hr]. split; [| assumption].
  destruct (isspace c); [discriminate | reflexivity].
Qed.

Lemma unbroken_In (token : str) (c : char) :
  unbroken token = true -> In c token -> isspace c = false.
Proof.
  unfold unbroken. intros H Hin.
  rewrite forallb_forall in H. specialize (H c Hin).
  destruct (isspace c); [discriminate | reflexivity].
Qed.

Lemma re_split_unbroken (token : str) :
  unbroken token = true -> forall st, re_split_from st token = [token].
Proof.
  induction token as [| c rest IH]; intros H st; simpl; [reflexivity |].
  apply unbroken_cons in H. destruct H as [Hc Hr].
  rewrite Hc, (IH Hr). reflexivity.
Qed.

Lemma split_space_unbroken (token : str) :
  unbroken token = true -> split_space (token ++ [SPACE]) = [token; []].
Proof.
  induction token as [| c rest IH]; intros H; simpl; [reflexivity |].
  apply unbroken_cons in H. destruct H as [Hc Hr].
  destruct (N.eqb_spec c SPACE) as [E | E].
  - subst c. vm_compute in Hc. discriminate.
  - rewrite (IH Hr). reflexivity.
Qed.

Lemma endswith_unbroken (token : str) :
  unbroken token = true -> endswith token [LF] = false.
Proof.
  intros H. unfold endswith.
  destruct (length [LF] <=? length token)%nat; [| reflexivity]. simpl.
  unfold str_eqb.
  destruct (list_eq_dec N.eq_dec (skipn (length token - 1) token) [LF])
    as [E | E]; [| reflexivity].
  assert (Hin : In LF token).
  { rewrite <- (firstn_skipn (length token - 1) token). apply in_or_app.
    right. rewrite E. left. reflexivity. }
  apply (@unbroken_In token LF H) in Hin. vm_compute in Hin. discriminate.
Qed.

Lemma sentence_pass_unbroken (m : Z) (token : str) :
  unbroken token = true -> sentence_pass m token = [token ++ [SPACE]].
Proof.
  intros H. unfold sentence_pass, re_split_sentences.
  rewrite re_split_unbroken by assumption. simpl. unfold pack_sentence.
  rewrite endswith_unbroken by assumption. simpl.
  destruct token; reflexivity.
Qed.

Lemma word_pass_unbroken (m : Z) (token : str) :
  unbroken token = true -> m <= len token ->
  word_pass m [token ++ [SPACE]] = [token ++ [SPACE]; [SPACE]].
Proof.
  intros H Hm. unfold word_pass. simpl. unfold refine_chunk.
  assert (Hlen : len (token ++ [SPACE]) = len token + 1)
    by (rewrite len_app; reflexivity).
  destruct (len (token ++ [SPACE]) <=? m) eqn:E;
    [apply Z.leb_le in E; lia |].
  rewrite split_space_unbroken by assumption. simpl. unfold pack_word.
  destruct (is_empty (token ++ [SPACE])) eqn:Ee.
  { destruct token; discriminate. }
  assert (E2 : (len (token ++ [SPACE]) + len [SPACE] <=? m) = false).
  { apply Z.leb_gt. rewrite Hlen. change (len [SPACE]) with 1. lia. }
  rewrite E2. reflexivity.
Qed.

(** On a token longer than the bound, the chunks are the hard cuts of the
    token with a space appended, followed by one more space. *)
Lemma chunk_text_unbroken (token : str) (m : Z) :
  unbroken token = true -> 1 <= m -> m < len token ->
  _chunk_text token m
  = res_bind (py_range 0 (len token + 1) m) (fun idxs =>
      Ok (map (fun i => py_slice (token ++ [SPACE]) i (i + m)) idxs
          ++ [[SPACE]])).
Proof.
  intros H Hm Hlong. unfold _chunk_text.
  destruct (len token <=? m) eqn:E; [apply Z.leb_le in E; lia |].
  rewrite sentence_pass_unbroken by assumption.
  rewrite word_pass_unbroken by (assumption || lia).
  simpl hard_split. rewrite len_app.
  destruct (len token + len [SPACE] <=? m) eqn:E1;
    [apply Z.leb_le in E1; unfold len in E1 at 2; simpl in E1; lia |].
  change (len [SPACE]) with 1.
  destruct (py_range 0 (len token + 1) m) as [idxs | e |]; simpl;
    try reflexivity.
  destruct (1 <=? m) eqn:E2; [reflexivity | apply Z.leb_gt in E2; lia].
Qed.

Lemma py_range_multiple (n m : nat) :
  (1 <= m)%nat ->
  py_range 0 (Z.of_nat (n * m) + 1) (Z.of_nat m)
  = Ok (map (fun k => 0 + Z.of_nat k * Z.of_nat m) (seq 0 (S n))).
Proof.
  intros Hm. unfold py_range.
  destruct (Z.of_nat m =? 0) eqn:E; [apply Z.eqb_eq in E; lia |].
  destruct (0 <? Z.of_nat m) eqn:E1; [| apply Z.ltb_ge in E1; lia].
  destruct (0 <? Z.of_nat (n * m) + 1) eqn:E2; [| apply Z.ltb_ge in E2; lia].
  replace (Z.of_nat (n * m) + 1 - 0 - 1) with (Z.of_nat n * Z.of_nat m) by lia.
  rewrite Z.div_mul by lia.
  replace (Z.to_nat (Z.of_nat n + 1)) with (S n) by lia. reflexivity.
Qed.

Lemma py_slice_block (token : str) (n m k : nat) :
  length token = (n * m)%nat -> (k < n)%nat ->
  py_slice (token ++ [SPACE]) (0 + Z.of_nat k * Z.of_nat m)
    (0 + Z.of_nat k * Z.of_nat m + Z.of_nat m)
  = firstn m (skipn (k * m) token).
Proof.
  intros Hlen Hk. unfold py_slice, clamp_index.
  rewrite len_app. unfold len. simpl length. rewrite Hlen.
  assert (Hkm : (k * m + m <= n * m)%nat) by nia.
  destruct (0 + Z.of_nat k * Z.of_nat m <? 0) eqn:E1;
    [apply Z.ltb_lt in E1; lia |].
  destruct (0 + Z.of_nat k * Z.of_nat m + Z.of_nat m <? 0) eqn:E2;
    [apply Z.ltb_lt in E2; lia |].
  replace (Z.to_nat (Z.max 0 (Z.min (0 + Z.of_nat k * Z.of_nat m)
                                (Z.of_nat (n * m) + Z.of_nat 1))))
    with (k * m)%nat by lia.
  replace (Z.to_nat
             (Z.max 0 (Z.min (0 + Z.of_nat k * Z.of_nat m + Z.of_nat m)
                         (Z.of_nat (n * m) + Z.of_nat 1))
              - Z.max 0 (Z.min (0 + Z.of_nat k * Z.of_nat m)
                           (Z.of_nat (n * m) + Z.of_nat 1))))
    with m by lia.
  rewrite skipn_app, firstn_app, length_skipn, Hlen.
  replace (m - (n * m - k * m))%nat with 0%nat by lia.
  simpl. rewrite app_nil_r. reflexivity.
Qed.

Lemma py_slice_after (token : str) (n m : nat) :
  length token = (n * m)%nat -> (1 <= m)%nat ->
  py_slice (token ++ [SPACE]) (0 + Z.of_nat n * Z.of_nat m)
    (0 + Z.of_nat n * Z.of_nat m + Z.of_nat m)
  = [SPACE].
Proof.
  intros Hlen Hm. unfold py_slice, clamp_index.
  rewrite len_app. unfold len. simpl length. rewrite Hlen.
  destruct (0 + Z.of_nat n * Z.of_nat m <? 0) eqn:E1;
    [apply Z.ltb_lt in E1; lia |].
  destruct (0 + Z.of_nat n * Z.of_nat m + Z.of_nat m <? 0) eqn:E2;
    [apply Z.ltb_lt in E2; lia |].
  replace (Z.to_nat (Z.max 0 (Z.min (0 + Z.of_nat n * Z.of_nat m)
                                (Z.of_nat (n * m) + Z.of_nat 1))))
    with (length token) by lia.
  replace (Z.to_nat
             (Z.max 0 (Z.min (0 + Z.of_nat n * Z.of_nat m + Z.of_nat m)
                         (Z.of_nat (n * m) + Z.of_nat 1))
              - Z.max 0 (Z.min (0 + Z.of_nat n * Z.of_nat m)
                           (Z.of_nat (n * m) + Z.of_nat 1))))
    with 1%nat by lia.
  rewrite skipn_app, skipn_all, Nat.sub_diag. reflexivity.
Qed.

Lemma blocks_length (m n : nat) (s : str) : length (blocks m n s) = n.
Proof. unfold blocks. rewrite length_map, length_seq. reflexivity. Qed.

Lemma blocks_size (m n : nat) (s : str) :
  length s = (n * m)%nat -> Forall (fun c => len c = Z.of_nat m) (blocks m n s).
Proof.
  intros Hlen. unfold blocks. apply Forall_forall. intros c Hin.
  apply in_map_iff in Hin. destruct Hin as [k [Hc Hk]]. subst c.
  apply in_seq in Hk. unfold len.
  rewrite length_firstn, length_skipn, Hlen. f_equal. nia.
Qed.

Lemma concat_blocks (m n : nat) :
  forall s, length s = (n * m)%nat -> concat (blocks m n s) = s.
Proof.
  unfold blocks. induction n as [| n IH]; intros s Hlen.
  - simpl in *. destruct s; [reflexivity | discriminate].
  - simpl seq. rewrite <- seq_shift. cbn [map concat]. rewrite map_map.
    rewrite Nat.mul_0_l. cbn [skipn].
    transitivity (firstn m s ++ skipn m s); [| apply firstn_skipn].
    f_equal. rewrite <- (IH (skipn m s)).
    + f_equal. apply map_ext. intros k. rewrite skipn_skipn.
      do 2 f_equal. lia.
    + rewrite length_skipn, Hlen. simpl. lia.
Qed.

(** An unbroken token of [n * m] characters, [n >= 2], under the bound
    [m]: the [n] blocks of [m] characters, then two chunks of one space. *)
Lemma chunk_text_unbroken_multiple (token : str) (n m : nat) :
  unbroken token = true -> (1 <= m)%nat -> (2 <= n)%nat ->
  length token = (n * m)%nat ->
  _chunk_text token (Z.of_nat m) = Ok (blocks m n token ++ [[SPACE]; [SPACE]]).
Proof.
  intros H Hm Hn Hlen.
  assert (Hl : len token = Z.of_nat (n * m)) by (unfold len; congruence).
  rewrite chunk_text_unbroken; [| assumption | lia | rewrite Hl; nia].
  rewrite Hl, py_range_multiple by assumption. unfold res_bind.
  rewrite seq_S, !map_app. cbn [map Nat.add].
  rewrite (py_slice_after _ _ Hlen Hm). rewrite <- app_assoc. simpl app.
  do 2 f_equal. unfold blocks. rewrite map_map. apply map_ext_in.
  intros k Hk. apply in_seq in Hk. apply py_slice_block with (n := n);
    [assumption | lia].
Qed.

(** C7. On every single token of 5000 characters (no whitespace in it)
    and with [max_chars = 100], [_chunk_text] returns 52 chunks: the 50
    consecutive blocks of exactly 100 characters, which concatenate to
    the token, followed by two chunks holding one space each. *)
Theorem chunk_text_long_token (token : str) :
  length token = 5000%nat ->
  unbroken token = true ->
  _chunk_text token 100
  = Ok (blocks 100 50 token ++ [[SPACE]; [SPACE]])
  /\ length (blocks 100 50 token ++ [[SPACE]; [SPACE]]) = 52%nat
  /\ Forall (fun c => len c = 100) (blocks 100 50 token)
  /\ concat (blocks 100 50 token) = token.
Proof.
  intros Hlen H. split; [| split; [| split]].
  - apply (@chunk_text_unbroken_multiple token 50 100 H); [lia | lia |].
    rewrite Hlen. reflexivity.
  - rewrite length_app, blocks_length. reflexivity.
  - apply (@blocks_size 100 50 token). rewrite Hlen. reflexivity.
  - apply concat_blocks. rewrite Hlen. reflexivity.
Qed.

Lemma chunk_text_long_token_witness :
  _chunk_text (repeat 97%N 5000) 100
  = Ok (blocks 100 50 (repeat 97%N 5000) ++ [[SPACE]; [SPACE]])
  /\ length (blocks 100 50 (repeat 97%N 5000) ++ [[SPACE]; [SPACE]]) = 52%nat
  /\ Forall (fun c => len c = 100) (blocks 100 50 (repeat 97%N 5000))
  /\ concat (blocks 100 50 (repeat 97%N 5000)) = repeat 97%N 5000.
Proof.
  apply (@chunk_text_long_token (repeat 97%N 5000)).
  - vm_compute. reflexivity.
  - vm_compute. reflexivity.
Defined.

(** The same run evaluated: 50 chunks of 100 letters and two spaces. *)
Example chunk_text_long_token_evaluated :
  _chunk_text (repeat 97%N 5000) 100
  = Ok (repeat (repeat 97%N 100) 50 ++ [[SPACE]; [SPACE]]).
Proof. vm_compute. reflexivity. Qed.

(** C8, as stated, fails: with the default bound the empty string gives
    one chunk, the empty string, not an empty sequence. *)
Lemma chunk_text_empty_not_nil : _chunk_text [] 4500 <> Ok [].
Proof. vm_compute. discriminate. Qed.

(** C8, amended. For the empty string [_chunk_text] returns the one-chunk
    list holding the empty string when [max_chars >= 0] (the pass-through
    case), and the empty list only when [max_chars < 0]. *)
Theorem chunk_text_empty (max_chars : Z) :
  _chunk_text [] max_chars = Ok (if 0 <=? max_chars then [[]] else []).
Proof.
  destruct (0 <=? max_chars) eqn:E.
  - apply chunk_text_passthrough. apply Z.leb_le in E. exact E.
  - apply chunk_text_negative. apply Z.leb_gt in E. exact E.
Qed.

(** *** With [max_chars = 0] the hard split reaches [range] with a zero step *)

Lemma fold_left_inv (A B : Type) (f : A -> B -> A) (Inv Post : A -> Prop) :
  (forall a b, Inv a -> Inv (f a b) /\ Post (f a b)) ->
  forall l a, Inv a ->
    Inv (fold_left f l a) /\ (l <> [] -> Post (fold_left f l a)).
Proof.
  intros Hstep. induction l as [| b l IH]; intros a Ha; simpl.
  - split; [assumption | congruence].
  - destruct (Hstep a b Ha) as [Hi Hp].
    destruct (IH (f a b) Hi) as [Hi' Hp']. split; [assumption |].
    intros _. destruct l as [| b' l']; [exact Hp | apply Hp'; discriminate].
Qed.

Lemma cons_first_not_nil (c : char) (pieces : list str) :
  cons_first c pieces <> [].
Proof. destruct pieces; discriminate. Qed.

Lemma re_split_from_not_nil (text : str) (st : scan) :
  re_split_from st text <> [].
Proof.
  revert st. induction text as [| c rest IH]; intros st; simpl.
  - discriminate.
  - destruct (isspace c); [destruct st |];
      auto using cons_first_not_nil; discriminate.
Qed.

Lemma split_space_not_nil (s : str) : split_space s <> [].
Proof.
  destruct s as [| c rest]; simpl; [discriminate |].
  destruct (c =? SPACE)%N; [discriminate | apply cons_first_not_nil].
Qed.

Lemma app_nonempty_r (A : Type) (l1 l2 : list A) : l2 <> [] -> l1 ++ l2 <> [].
Proof. destruct l1; simpl; [auto | discriminate]. Qed.

Lemma app_nonempty_l (A : Type) (l1 l2 : list A) : l1 <> [] -> l1 ++ l2 <> [].
Proof. destruct l1; simpl; [congruence | discriminate]. Qed.

Lemma Forall_snoc (A : Type) (Q : A -> Prop) (l : list A) (a : A) :
  Forall Q l -> Q a -> Forall Q (l ++ [a]).
Proof. intros Hl Ha. apply Forall_app. split; [assumption | auto]. Qed.

Lemma pack_sentence_inv (m : Z) (st : list str * str) (s : str) :
  Forall nonempty (fst st) ->
  Forall nonempty (fst (pack_sentence m st s))
  /\ nonempty (snd (pack_sentence m st s)).
Proof.
  destruct st as [chunks buf]. simpl. intros Hc.
  assert (Hsws : nonempty (if negb (endswith s [LF]) then s ++ [SPACE] else s)).
  { destruct (endswith s [LF]) eqn:E; simpl.
    - destruct s; [discriminate | discriminate].
    - apply app_nonempty_r. discriminate. }
  destruct buf as [| b buf']; simpl; [split; assumption |].
  match goal with |- context [if ?c then _ else _] => destruct c end; simpl.
  - split; [assumption | discriminate].
  - split; [| assumption]. apply Forall_snoc; [assumption | discriminate].
Qed.

Lemma sentence_pass_nonempty (m : Z) (text : str) :
  Forall nonempty (sentence_pass m text) /\ sentence_pass m text <> [].
Proof.
  unfold sentence_pass, re_split_sentences.
  destruct (@fold_left_inv _ _ (pack_sentence m)
              (fun st => Forall nonempty (fst st))
              (fun st => nonempty (snd st))
              (@pack_sentence_inv m)
              (re_split_from Plain text) ([], []))
    as [Hi Hp]; [constructor |].
  specialize (Hp (@re_split_from_not_nil text Plain)).
  destruct (fold_left (pack_sentence m) (re_split_from Plain text) ([], []))
    as [chunks buf]. simpl in *.
  destruct buf as [| b buf']; [elim Hp; reflexivity |]. simpl. split.
  - apply Forall_snoc; [assumption | discriminate].
  - apply app_nonempty_r. discriminate.
Qed.

Lemma pack_word_inv (m : Z) (st : list str * str) (w : str) :
  Forall nonempty (fst st) ->
  Forall nonempty (fst (pack_word m st w)) /\ nonempty (snd (pack_word m st w)).
Proof.
  destruct st as [refined cur]. simpl. intros Hr.
  assert (Hseg : nonempty (w ++ [SPACE])) by (apply app_nonempty_r; discriminate).
  destruct cur as [| c cur']; simpl; [split; assumption |].
  match goal with |- context [if ?c then _ else _] => destruct c end; simpl.
  - split; [assumption | discriminate].
  - split; [| assumption]. apply Forall_snoc; [assumption | discriminate].
Qed.

Lemma refine_chunk_inv (m : Z) (refined : list str) (ch : str) :
  nonempty ch ->
  Forall nonempty refined ->
  Forall nonempty (refine_chunk m refined ch) /\ refine_chunk m refined ch <> [].
Proof.
  intros Hch Hr. unfold refine_chunk. destruct (len ch <=? m).
  - split; [apply Forall_snoc; assumption | apply app_nonempty_r; discriminate].
  - destruct (@fold_left_inv _ _ (pack_word m)
                (fun st => Forall nonempty (fst st))
                (fun st => nonempty (snd st))
                (@pack_word_inv m) (split_space ch) (refined, []))
      as [Hi Hp]; [assumption |].
    specialize (Hp (@split_space_not_nil ch)).
    destruct (fold_left (pack_word m) (split_space ch) (refined, []))
      as [refined' cur]. simpl in *.
    destruct cur as [| c cur']; [elim Hp; reflexivity |]. simpl. split.
    + apply Forall_snoc; [assumption | discriminate].
    + apply app_nonempty_r. discriminate.
Qed.

Lemma word_pass_nonempty (m : Z) (chunks : list str) :
  Forall nonempty chunks -> chunks <> [] ->
  Forall nonempty (word_pass m chunks) /\ word_pass m chunks <> [].
Proof.
  unfold word_pass. intros Hall Hne.
  assert (G : forall l refined,
             Forall nonempty l -> Forall nonempty refined ->
             Forall nonempty (fold_left (refine_chunk m) l refined)
             /\ (l <> [] \/ refined <> [] ->
                 fold_left (refine_chunk m) l refined <> [])).
  { induction l as [| ch l IH]; intros refined Hl Hr; simpl.
    - split; [assumption |]. intros [H | H]; [congruence | assumption].
    - inversion Hl as [| ? ? Hch Hl']; subst.
      destruct (@refine_chunk_inv m refined ch Hch Hr) as [Hf Hn].
      destruct (IH _ Hl' Hf) as [Hf' Hn']. split; [assumption |].
      intros _. apply Hn'. right. assumption. }
  destruct (G chunks [] Hall (Forall_nil _)) as [Hf Hn].
  split; [assumption | apply Hn; left; assumption].
Qed.

(** On a non-empty text [max_chars = 0] ends in the [ValueError] of
    [range(0, len(ch), 0)]. *)
Lemma chunk_text_zero (text : str) :
  text <> [] -> _chunk_text text 0 = Raise ValueError.
Proof.
  intros Hne. unfold _chunk_text.
  destruct (len text <=? 0) eqn:E.
  { apply Z.leb_le in E. apply len_zero_nil in E. contradiction. }
  destruct (sentence_pass_nonempty 0 text) as [Hs Hsn].
  destruct (@word_pass_nonempty 0 _ Hs Hsn) as [Hw Hwn].
  destruct (word_pass 0 (sentence_pass 0 text)) as [| ch rest];
    [congruence |].
  inversion Hw as [| ? ? Hch _]; subst. simpl.
  destruct (len ch <=? 0) eqn:E1.
  { apply Z.leb_le in E1. apply len_zero_nil in E1. contradiction. }
  reflexivity.
Qed.

(** *** Lines *)

Lemma lstrip_nil_blank (s : str) : lstrip s = [] <-> is_blank s = true.
Proof.
  induction s as [| c rest IH]; simpl; [tauto |].
  destruct (isspace c); simpl; [exact IH |].
  split; discriminate.
Qed.

Lemma lstrip_app_nonspace (s : str) (c : char) :
  isspace c = false -> lstrip (s ++ [c]) <> [].
Proof.
  intros Hc. induction s as [| d rest IH]; simpl.
  - rewrite Hc. discriminate.
  - destruct (isspace d); [exact IH | discriminate].
Qed.

(** The test of the code, [not line.strip()], holds exactly of the lines
    made of whitespace only. *)
Lemma strip_empty_blank (line : str) : is_empty (strip line) = is_blank line.
Proof.
  unfold strip, rstrip. destruct (is_blank line) eqn:E.
  - apply lstrip_nil_blank in E. rewrite E. reflexivity.
  - destruct (lstrip line) as [| c rest] eqn:El.
    + apply lstrip_nil_blank in El. congruence.
    + assert (Hc : isspace c = false).
      { clear E. induction line as [| d l IH]; simpl in El; [discriminate |].
        destruct (isspace d) eqn:Ed; [auto |].
        inversion El; subst. assumption. }
      simpl rev.
      pose proof (@lstrip_app_nonspace (rev rest) c Hc) as Hn.
      destruct (lstrip (rev rest ++ [c])) as [| x xs] eqn:Ex; [congruence |].
      simpl. destruct (rev xs); reflexivity.
Qed.

Lemma concat_cons_first (c : char) (pieces : list str) :
  concat (cons_first c pieces) = c :: concat pieces.
Proof. destruct pieces; reflexivity. Qed.

(** The lines of a document concatenate back to the document. *)
Lemma concat_splitlines (text : str) : concat (splitlines text) = text.
Proof.
  assert (G : forall n t, (length t <= n)%nat -> concat (splitlines t) = t).
  { induction n as [| n IH]; intros t Hn.
    - destruct t; [reflexivity | simpl in Hn; lia].
    - destruct t as [| c rest]; [reflexivity |]. simpl in Hn. simpl.
      destruct (c =? CR)%N.
      + destruct rest as [| c2 rest2]; [reflexivity |].
        destruct (c2 =? LF)%N; simpl.
        * rewrite IH; [reflexivity | simpl in Hn; lia].
        * f_equal. apply (IH (c2 :: rest2)). lia.
      + destruct (is_linebreak c); simpl.
        * f_equal. apply IH. lia.
        * rewrite concat_cons_first. f_equal. apply IH. lia. }
  apply (G (length text)). lia.
Qed.

End SegmenterFacts.

(** * Facts about the retrying invoker and the orchestrator *)

Section PipelineFacts.

Context {runtime : Runtime}.
Variable P : Type.
Variable provider_translate : str -> str -> str -> P -> res str * P.

Lemma logged_nil (w : world P) : logged w [] = w.
Proof. destruct w. unfold logged. simpl. rewrite app_nil_r. reflexivity. Qed.

Lemma logged_logged (w : world P) (c1 c2 : list call) :
  logged (logged w c1) c2 = logged w (c1 ++ c2).
Proof. unfold logged. simpl. rewrite app_assoc. reflexivity. Qed.

(** *** The pause between two attempts *)

(** The first delay is [backoff] itself. *)
Lemma float_mul_pow2_zero (x : Q) : float_mul_pow2 x 0 = Ok x.
Proof.
  unfold float_mul_pow2. simpl. destruct x as [n d]. unfold Qmult. simpl.
  rewrite Z.mul_1_r, Pos.mul_1_r. reflexivity.
Qed.

Lemma is_infinite_sure (d : Q) :
  (- SLEEP_SURE <= d)%Q -> (d <= SLEEP_SURE)%Q -> is_infinite d = false.
Proof.
  intros Hlo Hhi. unfold is_infinite. apply Bool.orb_false_iff. split.
  - destruct (Qle_bool (inject_Z FLOAT_LIMIT) d) eqn:E; [| reflexivity].
    apply Qle_bool_iff in E. exfalso.
    assert (Hlt : (SLEEP_SURE < inject_Z FLOAT_LIMIT)%Q) by reflexivity.
    apply (Qlt_irrefl SLEEP_SURE).
    eapply Qlt_le_trans; [exact Hlt |]. eapply Qle_trans; eassumption.
  - destruct (Qle_bool d (- inject_Z FLOAT_LIMIT)) eqn:E; [| reflexivity].
    apply Qle_bool_iff in E. exfalso.
    assert (Hlt : (- inject_Z FLOAT_LIMIT < - SLEEP_SURE)%Q) by reflexivity.
    apply (Qlt_irrefl (- SLEEP_SURE)).
    eapply Qle_lt_trans; [| exact Hlt]. eapply Qle_trans; eassumption.
Qed.

(** Up to [SLEEP_SURE] seconds a non-negative delay is slept. *)
Lemma time_sleep_sure (d : Q) (w : world P) :
  (0 <= d)%Q -> (d <= SLEEP_SURE)%Q ->
  time_sleep d w
  = (Ok tt, World (remote w) (sent w) (slept w ++ [d]) (catalog_reads w)).
Proof.
  intros H0 Hhi. unfold time_sleep.
  assert (Hlo : (- SLEEP_SURE <= d)%Q).
  { eapply Qle_trans; [| exact H0]. discriminate. }
  rewrite is_infinite_sure by assumption.
  apply Qle_bool_iff in Hlo, Hhi, H0. rewrite Hlo, Hhi, H0. reflexivity.
Qed.

(** Down to [- SLEEP_SURE] seconds a negative delay raises [ValueError]. *)
Lemma time_sleep_negative (d : Q) (w : world P) :
  (- SLEEP_SURE <= d)%Q -> (d < 0)%Q ->
  time_sleep d w = (Raise ValueError, w).
Proof.
  intros Hlo Hneg. unfold time_sleep.
  assert (Hhi : (d <= SLEEP_SURE)%Q).
  { apply Qlt_le_weak. eapply Qlt_trans; [exact Hneg |]. reflexivity. }
  rewrite is_infinite_sure by assumption.
  apply Qle_bool_iff in Hlo, Hhi. rewrite Hlo, Hhi. simpl.
  destruct (Qle_bool 0 d) eqn:E; [| reflexivity].
  apply Qle_bool_iff in E. exfalso. apply (Qlt_irrefl d).
  eapply Qlt_le_trans; eassumption.
Qed.

(** [time.sleep] either sleeps, which is logged, or raises and leaves
    the world as it was. *)
Lemma time_sleep_cases (d : Q) (w : world P) :
  time_sleep d w
  = (Ok tt, World (remote w) (sent w) (slept w ++ [d]) (catalog_reads w))
  \/ exists e, time_sleep d w = (Raise e, w).
Proof.
  unfold time_sleep. destruct (is_infinite d); [right; eauto |].
  destruct (Qle_bool (- SLEEP_SURE) d && Qle_bool d SLEEP_SURE).
  - destruct (Qle_bool 0 d); [left; reflexivity | right; eauto].
  - destruct (long_sleep d); [right; eauto | left; reflexivity].
Qed.

(** The pause of the retry loop, followed by [next]: the delay is
    computed and slept and [next] runs, or the pause raises and nothing
    else happens. *)
Lemma pause_cases (A : Type) (backoff : Q) (e : Z) (next : M P A)
    (w : world P) :
  bind (lift (float_mul_pow2 backoff e))
    (fun d => bind (time_sleep d) (fun _ => next)) w
  = next (World (remote w) (sent w)
            (slept w ++ [(backoff * inject_Z (2 ^ e))%Q]) (catalog_reads w))
  \/ exists err,
      bind (lift (float_mul_pow2 backoff e))
    (fun d => bind (time_sleep d) (fun _ => next)) w
      = (Raise err, w).
Proof.
  unfold bind, lift, float_mul_pow2.
  destruct (1024 <=? e); [right; eauto |].
  destruct (time_sleep_cases (backoff * inject_Z (2 ^ e)) w) as [H | [err H]];
    rewrite H; [left; reflexivity | right; eauto].
Qed.

(** A delay that is computable and within [SLEEP_SURE] is slept. *)
Lemma pause_sure (A : Type) (backoff : Q) (e : Z) (next : M P A)
    (w : world P) :
  e < 1024 -> (0 <= backoff * inject_Z (2 ^ e))%Q ->
  (backoff * inject_Z (2 ^ e) <= SLEEP_SURE)%Q ->
  bind (lift (float_mul_pow2 backoff e))
    (fun d => bind (time_sleep d) (fun _ => next)) w
  = next (World (remote w) (sent w)
            (slept w ++ [(backoff * inject_Z (2 ^ e))%Q]) (catalog_reads w)).
Proof.
  intros He H0 Hhi. unfold bind, lift, float_mul_pow2.
  replace (1024 <=? e) with false by (symmetry; apply Z.leb_gt; lia).
  rewrite time_sleep_sure by assumption. reflexivity.
Qed.

(** The loops agree when their bodies do. *)
Lemma for_each_ext (A B : Type) (f g : A -> M P B) :
  (forall a w, f a w = g a w) ->
  forall l w, for_each f l w = for_each g l w.
Proof.
  intros Hfg. induction l as [| a rest IH]; intros w; simpl; [reflexivity |].
  unfold bind. rewrite Hfg. destruct (g a w) as [[b | e |] w']; try reflexivity.
  rewrite IH. reflexivity.
Qed.

(** A first call that succeeds is the whole run of the invoker, whatever
    [retries] and [backoff] are. *)
Lemma retry_loop_first_success (fuel : nat) (self : ENVITranslator)
    (text : str) (retries : Z) (backoff : Q) (attempt : Z) (w : world P)
    (out : str) (p' : P) :
  provider_translate (source self) (target self) text (remote w) = (Ok out, p') ->
  retry_loop provider_translate fuel self text retries backoff attempt w
  = (Ok out,
     World p' (sent w ++ [Call (source self) (target self) text])
       (slept w) (catalog_reads w)).
Proof.
  intros H. destruct fuel; simpl; unfold try_except, translator_translate;
    rewrite H; reflexivity.
Qed.

(** A negative retry budget is not rejected: it acts as a budget of 0. *)
Lemma retry_translate_negative (self : ENVITranslator) (text : str)
    (retries : Z) (backoff : Q) (w : world P) :
  retries < 0 ->
  _retry_translate provider_translate self text retries backoff w = _retry_translate provider_translate self text 0 backoff w.
Proof.
  intros Hneg. unfold _retry_translate.
  replace (Z.to_nat retries) with O by lia. simpl.
  unfold try_except.
  destruct (translator_translate provider_translate (source self)
              (target self) text w) as [[out | e |] w']; try reflexivity.
  replace (1 >? retries) with true by (symmetry; apply Z.gtb_lt; lia).
  reflexivity.
Qed.

Lemma translate_text_negative_retries (self : ENVITranslator) (text : str)
    (preserve : bool) (m retries : Z) (backoff : Q) (w : world P) :
  retries < 0 ->
  translate_text provider_translate self text preserve m retries backoff w
  = translate_text provider_translate self text preserve m 0 backoff w.
Proof.
  intros Hneg. unfold translate_text.
  destruct (is_empty text); [reflexivity |].
  destruct preserve; simpl.
  - unfold bind.
    rewrite (@for_each_ext _ _
               (translate_line provider_translate self m retries backoff)
               (translate_line provider_translate self m 0 backoff));
      [reflexivity |].
    intros line w0. unfold translate_line.
    destruct (is_empty (strip line)); [reflexivity |].
    unfold bind, lift. destruct (_chunk_text line m); try reflexivity.
    rewrite (@for_each_ext _ _
               (fun chunk => _retry_translate provider_translate self chunk retries backoff)
               (fun chunk => _retry_translate provider_translate self chunk 0 backoff));
      [reflexivity |].
    intros chunk w1. apply retry_translate_negative. assumption.
  - apply retry_translate_negative. assumption.
Qed.

(** *** Unformatted mode *)

(** C3, amended. For every non-empty text, [translate_text] with
    [preserve_format = false] is one run of the retrying invoker on the
    whole text, without segmentation; when [len text <= max_chars] this is
    the concatenation of the translated chunks of [_chunk_text text
    max_chars], the only chunk being the text itself. *)
Theorem translate_text_whole_unit (self : ENVITranslator) (text : str)
    (m retries : Z) (backoff : Q) (w : world P) :
  text <> [] ->
  translate_text provider_translate self text false m retries backoff w
  = _retry_translate provider_translate self text retries backoff w
  /\ (len text <= m ->
      translate_text provider_translate self text false m retries backoff w
      = spec_translate_whole provider_translate self text m retries backoff w).
Proof.
  intros Hne.
  assert (H1 : translate_text provider_translate self text false m retries backoff w
               = _retry_translate provider_translate self text retries backoff w).
  { unfold translate_text. destruct text; [congruence | reflexivity]. }
  split; [exact H1 |]. intros Hfit. rewrite H1.
  unfold spec_translate_whole, bind, lift.
  rewrite chunk_text_passthrough by assumption. simpl. unfold bind.
  destruct (_retry_translate provider_translate self text retries backoff w) as [[out | e |] w'];
    try reflexivity.
  simpl. rewrite app_nil_r. reflexivity.
Qed.

(** *** What a loop sends to the provider, and what it returns *)

Lemma bind_ret_snd (A B : Type) (m : M P A) (f : A -> B) (w : world P) :
  snd (bind m (fun a => ret (f a)) w) = snd (m w).
Proof. unfold bind. destruct (m w) as [[a | e |] w']; reflexivity. Qed.


Lemma for_each_sent (A B : Type) (body : A -> M P B) (Q : A -> call -> Prop) :
  (forall a w, exists calls,
      sent (snd (body a w)) = sent w ++ calls /\ Forall (Q a) calls) ->
  forall l w, exists calls,
    sent (snd (for_each body l w)) = sent w ++ calls
    /\ Forall (fun c => exists a, In a l /\ Q a c) calls.
Proof.
  intros Hbody. induction l as [| a rest IH]; intros w; simpl.
  - exists []. rewrite app_nil_r. split; [reflexivity | constructor].
  - unfold bind. destruct (Hbody a w) as [c1 [Hs1 Hq1]].
    assert (Hq1' : Forall (fun c => exists a0, In a0 (a :: rest) /\ Q a0 c) c1).
    { eapply Forall_impl; [| exact Hq1]. intros c Hc. exists a.
      split; [left; reflexivity | assumption]. }
    destruct (body a w) as [[b | e |] w1]; simpl in Hs1;
      try (exists c1; split; assumption).
    destruct (IH w1) as [c2 [Hs2 Hq2]].
    exists (c1 ++ c2). split.
    + destruct (for_each body rest w1) as [[bs | e |] w2]; simpl in *;
        rewrite Hs2, Hs1, app_assoc; reflexivity.
    + apply Forall_app. split; [assumption |].
      eapply Forall_impl; [| exact Hq2]. intros c [a0 [Hin Hc]].
      exists a0. split; [right; assumption | assumption].
Qed.


(** The invoker sends its own text to the provider, and nothing else. *)
Lemma retry_loop_sent (self : ENVITranslator) (text : str) (retries : Z)
    (backoff : Q) :
  forall fuel attempt w, exists n,
    sent (snd (retry_loop provider_translate fuel self text retries backoff
                 attempt w))
    = sent w ++ repeat (Call (source self) (target self) text) n.
Proof.
  induction fuel as [| fuel IH]; intros attempt w; simpl;
    unfold try_except, translator_translate;
    destruct (provider_translate (source self) (target self) text (remote w))
      as [[out | e |] p']; simpl;
    try (exists 1%nat; reflexivity);
    (destruct (attempt + 1 >? retries); [exists 1%nat; reflexivity |]);
    match goal with
    | |- context [bind (lift (float_mul_pow2 ?b ?x))
                    (fun d => bind (time_sleep d) (fun _ => ?next)) ?w0] =>
        destruct (@pause_cases _ b x next w0) as [H | [err H]]; rewrite H
    end;
    try (exists 1%nat; reflexivity).
  match goal with
  | |- context [retry_loop _ fuel _ _ _ _ ?a ?w0] =>
      destruct (IH a w0) as [n Hn]
  end.
  exists (S n). rewrite Hn. simpl. rewrite <- app_assoc. reflexivity.
Qed.



(** *** The no-op provider *)

Lemma translate_line_identity (self : ENVITranslator) (m retries : Z)
    (backoff : Q) (line : str) (w : world P) :
  (forall src tgt text p, provider_translate src tgt text p = (Ok text, p)) ->
  (is_blank line = false -> len line <= m) ->
  translate_line provider_translate self m retries backoff line w
  = (Ok line, logged w (content_calls self [line])).
Proof.
  intros Hid Hfit. unfold translate_line, content_calls. simpl filter.
  rewrite strip_empty_blank. destruct (is_blank line) eqn:Eb; simpl.
  - rewrite logged_nil. reflexivity.
  - unfold bind, lift. rewrite chunk_text_passthrough by auto. simpl.
    unfold bind, _retry_translate.
    rewrite (@retry_loop_first_success _ _ _ _ _ _ _ line (remote w))
      by apply Hid.
    simpl. rewrite app_nil_r. reflexivity.
Qed.

(** C1, amended. With a provider that translates every text to itself,
    and a document each of whose non-blank lines (line end included) has
    at most [max_chars] characters, [translate_text] with
    [preserve_format = true] returns the document exactly, having sent
    each non-blank line to the provider once, as a single chunk. *)
Theorem translate_text_round_trip (self : ENVITranslator) (d : str)
    (m retries : Z) (backoff : Q) (w : world P) :
  (forall src tgt text p, provider_translate src tgt text p = (Ok text, p)) ->
  Forall (fun line => is_blank line = false -> len line <= m) (splitlines d) ->
  translate_text provider_translate self d true m retries backoff w
  = (Ok d, logged w (content_calls self (splitlines d))).
Proof.
  intros Hid Hfit. unfold translate_text.
  destruct d as [| c0 d0].
  { simpl. unfold content_calls. simpl. rewrite logged_nil. reflexivity. }
  assert (Hne : is_empty (c0 :: d0) = false) by reflexivity.
  remember (c0 :: d0) as d eqn:Hd. clear Hd. rewrite Hne. cbn [negb].
  assert (G : forall ls w0,
             Forall (fun line => is_blank line = false -> len line <= m) ls ->
             for_each (translate_line provider_translate self m retries backoff)
               ls w0 = (Ok ls, logged w0 (content_calls self ls))).
  { induction ls as [| line rest IH]; intros w0 Hls.
    - simpl. unfold content_calls. simpl. rewrite logged_nil. reflexivity.
    - inversion Hls as [| ? ? Hl Hrest]; subst. simpl. unfold bind.
      rewrite translate_line_identity by assumption.
      rewrite (IH _ Hrest). simpl. rewrite logged_logged. f_equal. f_equal.
      unfold content_calls. simpl.
      destruct (is_blank line); reflexivity. }
  unfold bind. rewrite (G _ w Hfit). simpl. rewrite concat_splitlines.
  reflexivity.
Qed.

(** *** Bounds that are not positive *)

Lemma translate_line_negative (self : ENVITranslator) (m retries : Z)
    (backoff : Q) (line : str) (w : world P) :
  m < 0 ->
  translate_line provider_translate self m retries backoff line w
  = (Ok (if is_blank line then line else []), w).
Proof.
  intros Hm. unfold translate_line. rewrite strip_empty_blank.
  destruct (is_blank line); [reflexivity |].
  unfold bind, lift. rewrite chunk_text_negative by assumption. reflexivity.
Qed.

Lemma translate_line_zero (self : ENVITranslator) (retries : Z)
    (backoff : Q) (line : str) (w : world P) :
  translate_line provider_translate self 0 retries backoff line w
  = (if is_blank line then Ok line else Raise ValueError, w).
Proof.
  unfold translate_line. rewrite strip_empty_blank.
  destruct (is_blank line) eqn:Eb; [reflexivity |].
  unfold bind, lift. rewrite chunk_text_zero; [reflexivity |].
  intros Hnil. subst line. discriminate.
Qed.

Lemma concat_blank_only (ls : list str) :
  concat (map (fun line => if is_blank line then line else []) ls)
  = concat (filter is_blank ls).
Proof.
  induction ls as [| line rest IH]; simpl; [reflexivity |].
  destruct (is_blank line); simpl; rewrite IH; reflexivity.
Qed.

(** With [max_chars <= 0] and [preserve_format = true] nothing reaches the
    provider and the world is untouched: a negative bound drops every
    non-blank line, a zero bound raises [ValueError] at the first one. *)
Lemma translate_text_nonpositive_bound (self : ENVITranslator) (text : str)
    (m retries : Z) (backoff : Q) (w : world P) :
  m <= 0 ->
  translate_text provider_translate self text true m retries backoff w
  = (if m <? 0 then Ok (concat (filter is_blank (splitlines text)))
     else if forallb is_blank (splitlines text) then Ok text
          else Raise ValueError,
     w).
Proof.
  intros Hm. unfold translate_text. destruct text as [| c0 t0].
  { simpl. destruct (m <? 0); reflexivity. }
  assert (Hne : is_empty (c0 :: t0) = false) by reflexivity.
  remember (c0 :: t0) as text eqn:Ht. clear Ht. rewrite Hne. cbn [negb].
  unfold bind. destruct (m <? 0) eqn:E.
  - apply Z.ltb_lt in E.
    assert (G : forall ls w0,
               for_each (translate_line provider_translate self m retries
                           backoff) ls w0
               = (Ok (map (fun line => if is_blank line then line else []) ls),
                  w0)).
    { induction ls as [| line rest IH]; intros w0; simpl; [reflexivity |].
      unfold bind. rewrite translate_line_negative by assumption.
      rewrite IH. reflexivity. }
    rewrite G. simpl. rewrite concat_blank_only. reflexivity.
  - apply Z.ltb_ge in E. assert (m = 0) by lia. subst m.
    assert (G : forall ls w0,
               for_each (translate_line provider_translate self 0 retries
                           backoff) ls w0
               = (if forallb is_blank ls then Ok ls else Raise ValueError, w0)).
    { induction ls as [| line rest IH]; intros w0; simpl; [reflexivity |].
      unfold bind. rewrite translate_line_zero.
      destruct (is_blank line); simpl; [| reflexivity].
      rewrite IH. destruct (forallb is_blank rest); reflexivity. }
    rewrite G. destruct (forallb is_blank (splitlines text)); [| reflexivity].
    simpl. rewrite concat_splitlines. reflexivity.
Qed.

(** C6, amended. [translate_text] validates nothing.  With
    [max_chars <= 0] and [preserve_format = true] it returns without any
    provider call, the world unchanged: a negative bound yields the blank
    lines only, a zero bound the built-in [ValueError] unless every line
    is blank; [_chunk_text] itself returns on every text (the empty list
    for a negative bound; for zero, [ValueError] or the one-chunk list of
    the empty text).  A negative [retries] acts as [retries = 0].
    Whatever the configuration, negative values included, a non-empty
    text in unformatted mode is sent to the provider, and a successful
    answer is returned. *)
Theorem translate_text_unvalidated (self : ENVITranslator) (text : str)
    (m retries : Z) (backoff : Q) (w : world P) :
  (m <= 0 ->
     translate_text provider_translate self text true m retries backoff w
     = (if m <? 0 then Ok (concat (filter is_blank (splitlines text)))
        else if forallb is_blank (splitlines text) then Ok text
             else Raise ValueError,
        w)
     /\ _chunk_text text m
        = (if m <? 0 then Ok []
           else if is_empty text then Ok [[]] else Raise ValueError))
  /\ (retries < 0 ->
      forall preserve,
        translate_text provider_translate self text preserve m retries backoff w
        = translate_text provider_translate self text preserve m 0 backoff w)
  /\ (forall out p',
        text <> [] ->
        provider_translate (source self) (target self) text (remote w)
        = (Ok out, p') ->
        translate_text provider_translate self text false m retries backoff w
        = (Ok out, World p' (sent w ++ [Call (source self) (target self) text])
                     (slept w) (catalog_reads w))).
Proof.
  split; [| split].
  - intros Hm. split; [apply translate_text_nonpositive_bound; assumption |].
    destruct (m <? 0) eqn:E.
    + apply chunk_text_negative. apply Z.ltb_lt. assumption.
    + apply Z.ltb_ge in E. assert (m = 0) by lia. subst m.
      destruct text; [reflexivity | apply chunk_text_zero; discriminate].
  - intros Hr preserve. apply translate_text_negative_retries. assumption.
  - intros out p' Hne Hcall. unfold translate_text.
    destruct text; [congruence |]. simpl is_empty. cbn [negb].
    unfold _retry_translate. apply retry_loop_first_success. assumption.
Qed.

End PipelineFacts.

(** * The retrying invoker against a provider that fails [k] times *)

Section RetryCounting.

Context {runtime : Runtime}.
Variable k : nat.
Variable self : ENVITranslator.
Variable text : str.
Variable retries : Z.
Variable backoff : Q.

Lemma retry_loop_unfold (P : Type)
    (pt : str -> str -> str -> P -> res str * P) (fuel : nat) (attempt : Z) :
  retry_loop pt fuel self text retries backoff attempt
  = try_except (translator_translate pt (source self) (target self) text)
      (fun e =>
         if attempt + 1 >? retries then raise e
         else
           bind (lift (float_mul_pow2 backoff (attempt + 1 - 1)))
             (fun d =>
                bind (time_sleep d)
                  (fun _ =>
                     match fuel with
                     | O => out_of_fuel
                     | S fuel' =>
                         retry_loop pt fuel' self text retries backoff
                           (attempt + 1)
                     end))).
Proof. destruct fuel; reflexivity. Qed.

Lemma delay_nonneg (i : nat) :
  (0 <= backoff)%Q -> (0 <= delay backoff i)%Q.
Proof.
  intros Hb. unfold delay.
  apply Qmult_le_0_compat; [assumption |].
  unfold Qle. simpl. pose proof (Z.pow_nonneg 2 (Z.of_nat i)). lia.
Qed.

Lemma retry_loop_flaky :
  (0 <= backoff)%Q ->
  (forall i, (i < Nat.min k (Z.to_nat retries))%nat ->
             Z.of_nat i < 1024 /\ (delay backoff i <= SLEEP_SURE)%Q) ->
  forall fuel a (w : world nat),
    remote w = a ->
    Z.of_nat a <= retries ->
    (Z.to_nat retries - a <= fuel)%nat ->
    (a <= k)%nat ->
    retry_loop (flaky_provider k) fuel self text retries backoff (Z.of_nat a) w
    = (if Z.of_nat k <=? retries then Ok text
       else Raise (ProviderError (Z.to_nat retries)),
       World (S (Nat.min k (Z.to_nat retries)))
         (sent w ++ repeat (Call (source self) (target self) text)
                      (S (Nat.min k (Z.to_nat retries)) - a))
         (slept w ++ map (delay backoff)
                       (seq a (Nat.min k (Z.to_nat retries) - a)))
         (catalog_reads w)).
Proof.
  intros Hb Hd.
  assert (Hsucc : forall a (w : world nat),
             remote w = a -> Z.of_nat a <= retries -> a = k ->
             (Ok text,
              World (S a) (sent w ++ [Call (source self) (target self) text])
                (slept w) (catalog_reads w))
             = (if Z.of_nat k <=? retries then Ok text
                else Raise (ProviderError (Z.to_nat retries)),
                World (S (Nat.min k (Z.to_nat retries)))
                  (sent w ++ repeat (Call (source self) (target self) text)
                               (S (Nat.min k (Z.to_nat retries)) - a))
                  (slept w ++ map (delay backoff)
                                (seq a (Nat.min k (Z.to_nat retries) - a)))
                  (catalog_reads w))).
  { intros a w Hw Ha Hk. rewrite Hk in *. clear Hk.
    replace (Z.of_nat k <=? retries) with true
      by (symmetry; apply Z.leb_le; lia).
    replace (Nat.min k (Z.to_nat retries)) with k by lia.
    replace (S k - k)%nat with 1%nat by lia.
    replace (k - k)%nat with 0%nat by lia.
    simpl. rewrite app_nil_r. reflexivity. }
  assert (Hlast : forall a (w : world nat),
             remote w = a -> (a < k)%nat -> Z.of_nat a = retries ->
             (Raise (ProviderError a),
              World (S a) (sent w ++ [Call (source self) (target self) text])
                (slept w) (catalog_reads w))
             = (if Z.of_nat k <=? retries then Ok text
                else Raise (ProviderError (Z.to_nat retries)),
                World (S (Nat.min k (Z.to_nat retries)))
                  (sent w ++ repeat (Call (source self) (target self) text)
                               (S (Nat.min k (Z.to_nat retries)) - a))
                  (slept w ++ map (delay backoff)
                                (seq a (Nat.min k (Z.to_nat retries) - a)))
                  (catalog_reads w))).
  { intros a w Hw Hk Hr.
    replace (Z.of_nat k <=? retries) with false
      by (symmetry; apply Z.leb_gt; lia).
    replace (Z.to_nat retries) with a by lia.
    replace (Nat.min k a) with a by lia.
    replace (S a - a)%nat with 1%nat by lia.
    replace (a - a)%nat with 0%nat by lia.
    simpl. rewrite app_nil_r. reflexivity. }
  induction fuel as [| fuel IH]; intros a w Hw Ha Hfuel Hak;
    rewrite retry_loop_unfold;
    unfold try_except, translator_translate, flaky_provider; rewrite Hw;
    destruct (a <? k)%nat eqn:Elt.
  - apply Nat.ltb_lt in Elt.
    replace (Z.of_nat a + 1 >? retries) with true
      by (symmetry; apply Z.gtb_lt; lia).
    unfold raise. apply Hlast; [assumption | assumption | lia].
  - apply Nat.ltb_ge in Elt. apply Hsucc; [assumption | assumption | lia].
  - apply Nat.ltb_lt in Elt.
    destruct (Z.of_nat a + 1 >? retries) eqn:Egt.
    { apply Z.gtb_lt in Egt. unfold raise.
      apply Hlast; [assumption | assumption | lia]. }
    assert (Hle : Z.of_nat a + 1 <= retries).
    { rewrite Z.gtb_ltb in Egt. apply Z.ltb_ge in Egt. lia. }
    replace (Z.of_nat a + 1 - 1) with (Z.of_nat a) by lia.
    destruct (Hd a) as [He Hs]; [lia |].
    pose proof (delay_nonneg a Hb) as H0. unfold delay in Hs, H0.
    rewrite pause_sure by assumption.
    replace (Z.of_nat a + 1) with (Z.of_nat (S a)) by lia.
    rewrite IH; [| reflexivity | lia | lia | lia].
    cbn [remote sent slept catalog_reads].
    set (j := Nat.min k (Z.to_nat retries)).
    assert (Hj : (a < j)%nat) by (unfold j; lia).
    f_equal. f_equal.
    + rewrite <- app_assoc. f_equal.
      replace (S j - a)%nat with (S (S j - S a)) by lia. reflexivity.
    + rewrite <- app_assoc. f_equal.
      replace (j - a)%nat with (S (j - S a)) by lia. reflexivity.
  - apply Nat.ltb_ge in Elt. apply Hsucc; [assumption | assumption | lia].
Qed.

(** The fuel given by [_retry_translate] is enough: its loop stops for
    lack of fuel only if a call of the provider itself did not return. *)
Lemma retry_loop_fuel (P : Type) (pt : str -> str -> str -> P -> res str * P) :
  forall fuel attempt (w : world P),
    (Z.to_nat (retries - attempt) <= fuel)%nat ->
    fst (retry_loop pt fuel self text retries backoff attempt w) = OutOfFuel ->
    exists src tgt x p, fst (pt src tgt x p) = OutOfFuel.
Proof.
  induction fuel as [| fuel IH]; intros attempt w Hfuel;
    rewrite retry_loop_unfold; unfold try_except, translator_translate;
    destruct (pt (source self) (target self) text (remote w))
      as [[out | e |] p'] eqn:Ep; simpl; try discriminate;
    try (intros _; exists (source self), (target self), text, (remote w);
         rewrite Ep; reflexivity);
    destruct (attempt + 1 >? retries) eqn:Egt; try discriminate;
    (assert (Hle : attempt + 1 <= retries)
      by (rewrite Z.gtb_ltb in Egt; apply Z.ltb_ge in Egt; lia));
    match goal with
    | |- context [bind (lift (float_mul_pow2 ?b ?x))
                    (fun d => bind (time_sleep d) (fun _ => ?next)) ?w0] =>
        destruct (@pause_cases _ _ _ b x next w0) as [H | [err H]]; rewrite H
    end;
    simpl; try discriminate.
  - lia.
  - apply IH. lia.
Qed.

(** C4, amended. Against a provider that fails its first [k] calls and
    then succeeds, with [retries >= 0], a non-negative backoff, and every
    delay [backoff * 2 ** i] of a failure [i] that is retried (the first
    [min k retries] failures) computable as a float ([i < 1024]) and of at
    most [SLEEP_SURE] seconds: if [retries >= k] the invoker returns the
    translation after exactly [k + 1] invocations; if [retries < k] it
    raises, after exactly [retries + 1] invocations, the failure of the
    last invocation itself, unchanged, not wrapped in another error.  The
    delays slept are [backoff * 2 ** i] for each failure [i] that was
    retried.  (Beyond these bounds the pause itself can raise, which ends
    the loop: see [retry_translate_delay_overflow] and
    [retry_translate_long_delay].) *)
Theorem retry_translate_counting (w : world nat) :
  0 <= retries ->
  (0 <= backoff)%Q ->
  (forall i, (i < Nat.min k (Z.to_nat retries))%nat ->
             Z.of_nat i < 1024 /\ (delay backoff i <= SLEEP_SURE)%Q) ->
  remote w = 0%nat ->
  (Z.of_nat k <= retries ->
   _retry_translate (flaky_provider k) self text retries backoff w
   = (Ok text,
      World (k + 1)%nat
        (sent w ++ repeat (Call (source self) (target self) text) (k + 1)%nat)
        (slept w ++ map (delay backoff) (seq 0 k))
        (catalog_reads w)))
  /\ (retries < Z.of_nat k ->
      _retry_translate (flaky_provider k) self text retries backoff w
      = (Raise (ProviderError (Z.to_nat retries)),
         World (Z.to_nat retries + 1)%nat
           (sent w ++ repeat (Call (source self) (target self) text)
                        (Z.to_nat retries + 1)%nat)
           (slept w ++ map (delay backoff) (seq 0 (Z.to_nat retries)))
           (catalog_reads w))).
Proof.
  intros Hr Hb Hd Hw. unfold _retry_translate.
  assert (Hrun := @retry_loop_flaky Hb Hd (Z.to_nat retries) 0%nat w Hw).
  change (Z.of_nat 0) with 0 in Hrun.
  split; intros Hk; rewrite Hrun; try lia.
  - replace (Z.of_nat k <=? retries) with true
      by (symmetry; apply Z.leb_le; lia).
    replace (Nat.min k (Z.to_nat retries)) with k by lia.
    rewrite !Nat.sub_0_r. replace (k + 1)%nat with (S k) by lia. reflexivity.
  - replace (Z.of_nat k <=? retries) with false
      by (symmetry; apply Z.leb_gt; lia).
    replace (Nat.min k (Z.to_nat retries)) with (Z.to_nat retries) by lia.
    rewrite !Nat.sub_0_r.
    replace (Z.to_nat retries + 1)%nat with (S (Z.to_nat retries)) by lia.
    reflexivity.
Qed.

End RetryCounting.

(** * Facts about the constructor and the batch endpoint *)

Section EndpointFacts.

Context {runtime : Runtime}.
Variable P : Type.
Variable provider_new : str -> str -> P -> res unit * P.
Variable provider_translate : str -> str -> str -> P -> res str * P.
Variable provider_languages : P -> res (list (str * str)) * P.
Variable lower : str -> str.

Lemma str_eqb_refl (s : str) : str_eqb s s = true.
Proof. unfold str_eqb. destruct (list_eq_dec N.eq_dec s s); congruence. Qed.

Lemma normalize_lang_auto_eq (lang : str) (w : world P) :
  lang = [] \/ lower lang = lit "auto" ->
  _normalize_lang provider_languages lower lang w = (Ok (lit "auto"), w).
Proof.
  intros [H | H]; unfold _normalize_lang.
  - subst lang. reflexivity.
  - destruct (is_empty lang); [reflexivity |].
    rewrite H, str_eqb_refl. reflexivity.
Qed.

(** C10. For every [lang] that is empty or whose lower-casing is ["auto"],
    [_normalize_lang] returns ["auto"] and leaves the world as it was: the
    catalogue is not read.  Hence the constructor, given such a string as
    source or as target, builds the provider object with ["auto"] in that
    position and stores ["auto"] in the corresponding field. *)
Theorem normalize_lang_auto (lang : str) (w : world P) :
  lang = [] \/ lower lang = lit "auto" ->
  _normalize_lang provider_languages lower lang w = (Ok (lit "auto"), w)
  /\ (forall tgt,
        ENVITranslator_init provider_new provider_languages lower lang tgt w
        = bind (_normalize_lang provider_languages lower tgt) (fun norm_target =>
          bind (translator_new provider_new (lit "auto") norm_target) (fun _ =>
          ret (Translator (lit "auto") norm_target))) w)
  /\ (forall src,
        ENVITranslator_init provider_new provider_languages lower src lang w
        = bind (_normalize_lang provider_languages lower src) (fun norm_source =>
          bind (translator_new provider_new norm_source (lit "auto")) (fun _ =>
          ret (Translator norm_source (lit "auto")))) w).
Proof.
  intros H. split; [| split].
  - apply normalize_lang_auto_eq. assumption.
  - intros tgt. unfold ENVITranslator_init. unfold bind at 1.
    rewrite normalize_lang_auto_eq by assumption. reflexivity.
  - intros src. unfold ENVITranslator_init. unfold bind at 1 4.
    destruct (_normalize_lang provider_languages lower src w)
      as [[norm_source | e |] w1]; try reflexivity.
    unfold bind at 1. rewrite normalize_lang_auto_eq by assumption.
    reflexivity.
Qed.

(** A loop either succeeds on every element, or stops at the first
    element whose body does not succeed, in the world that body left. *)
Lemma for_each_runs (A B : Type) (body : A -> M P B) :
  forall l w,
    match for_each body l w with
    | (Ok bs, w') => runs_ok body l w bs w'
    | (Raise e, w') =>
        exists done a rest bs w1,
          l = done ++ a :: rest
          /\ runs_ok body done w bs w1
          /\ body a w1 = (Raise e, w')
    | (OutOfFuel, w') =>
        exists done a rest bs w1,
          l = done ++ a :: rest
          /\ runs_ok body done w bs w1
          /\ body a w1 = (OutOfFuel, w')
    end.
Proof.
  induction l as [| a rest IH]; intros w; simpl.
  - constructor.
  - unfold bind. destruct (body a w) as [[b | e |] w1] eqn:Eb.
    + specialize (IH w1).
      destruct (for_each body rest w1) as [[bs | e |] w2]; simpl.
      * econstructor; eassumption.
      * destruct IH as [done [a' [rest' [bs [w1' [Hl [Hrun Hfail]]]]]]].
        exists (a :: done), a', rest', (b :: bs), w1'. subst rest.
        repeat split; [econstructor; eassumption | assumption].
      * destruct IH as [done [a' [rest' [bs [w1' [Hl [Hrun Hfail]]]]]]].
        exists (a :: done), a', rest', (b :: bs), w1'. subst rest.
        repeat split; [econstructor; eassumption | assumption].
    + exists [], a, rest, [], w. repeat split; [constructor | assumption].
    + exists [], a, rest, [], w. repeat split; [constructor | assumption].
Qed.

Lemma runs_ok_length (A B : Type) (body : A -> M P B) l w bs w' :
  runs_ok body l w bs w' -> length bs = length l.
Proof. induction 1; simpl; congruence. Qed.

(** C9, amended. For every ordered list of batch items: when every item
    succeeds, [translate_batch] returns one translated text per item, in
    input order, each item having run in the world its predecessor left;
    when an item fails, the batch as a whole raises [HTTPException 500]
    carrying that failure, in the world that item left: no result of the
    earlier items is returned and no later item is attempted. *)
Theorem translate_batch_all_or_nothing (req : BatchTranslateRequest)
    (w : world P) :
  match translate_batch provider_new provider_translate provider_languages
          lower req w with
  | (Ok outs, w') =>
      length outs = length (items req)
      /\ runs_ok (translate_item provider_new provider_translate
                    provider_languages lower req) (items req) w outs w'
  | (Raise e, w') =>
      exists done it rest outs w1 e0,
        items req = done ++ it :: rest
        /\ runs_ok (translate_item provider_new provider_translate
                      provider_languages lower req) done w outs w1
        /\ translate_item provider_new provider_translate provider_languages
             lower req it w1 = (Raise e0, w')
        /\ e = HTTPException 500 e0
  | (OutOfFuel, w') =>
      exists done it rest outs w1,
        items req = done ++ it :: rest
        /\ runs_ok (translate_item provider_new provider_translate
                      provider_languages lower req) done w outs w1
        /\ translate_item provider_new provider_translate provider_languages
             lower req it w1 = (OutOfFuel, w')
  end.
Proof.
  unfold translate_batch, try_except.
  pose proof (@for_each_runs _ _
                (translate_item provider_new provider_translate
                   provider_languages lower req) (items req) w) as H.
  destruct (for_each _ (items req) w) as [[outs | e |] w'];
    unfold raise.
  - split; [eapply runs_ok_length; eassumption | assumption].
  - destruct H as [done [it [rest [outs [w1 [Hl [Hrun Hfail]]]]]]].
    exists done, it, rest, outs, w1, e. auto.
  - assumption.
Qed.

End EndpointFacts.

(** * Scenarios *)

Section Scenarios.

(** The scenarios run on [strict_runtime]. *)
#[local] Existing Instance strict_runtime.

Lemma translate_text_round_trip_witness :
  translate_text identity_provider auto_vi two_paragraphs true 4500 3 1
    (fresh tt)
  = (Ok two_paragraphs,
     logged (fresh tt) (content_calls auto_vi (splitlines two_paragraphs))).
Proof.
  apply translate_text_round_trip.
  - intros src tgt text p. reflexivity.
  - apply Forall_forall. intros line Hin _. vm_compute in Hin.
    destruct Hin as [H | [H | [H | []]]]; subst line; vm_compute;
      discriminate.
Defined.

(** C1, as stated, fails: with the no-op provider and [max_chars = 3] the
    document [a.  b] (two spaces) comes back as [a. b ] (one space between
    the sentences, one appended). *)
Lemma translate_text_round_trip_fails :
  fst (translate_text identity_provider auto_vi (lit "a.  b") true 3 3 1
         (fresh tt)) = Ok (lit "a. b ")
  /\ lit "a. b " <> lit "a.  b".
Proof. split; [vm_compute; reflexivity | vm_compute; discriminate]. Qed.

(** C3, as stated, fails: in unformatted mode a text longer than
    [max_chars] is sent whole, in one request, where the specification's
    reading sends its chunks. *)
Lemma translate_text_unformatted_not_segmented :
  translate_text identity_provider auto_vi (lit "a.  b") false 3 3 1 (fresh tt)
  = (Ok (lit "a.  b"), logged (fresh tt) [Call (lit "auto") (lit "vi") (lit "a.  b")])
  /\ spec_translate_whole identity_provider auto_vi (lit "a.  b") 3 3 1 (fresh tt)
     = (Ok (lit "a. b "),
        logged (fresh tt) [Call (lit "auto") (lit "vi") (lit "a. ");
                           Call (lit "auto") (lit "vi") (lit "b ")])
  /\ translate_text identity_provider auto_vi (lit "a.  b") false 3 3 1 (fresh tt)
     <> spec_translate_whole identity_provider auto_vi (lit "a.  b") 3 3 1
          (fresh tt).
Proof.
  split; [vm_compute; reflexivity |].
  split; [vm_compute; reflexivity | vm_compute; discriminate].
Qed.

Lemma translate_text_whole_unit_witness :
  lit "Hello" <> []
  /\ translate_text identity_provider auto_vi (lit "Hello") false 4500 3 1
       (fresh tt)
     = _retry_translate identity_provider auto_vi (lit "Hello") 3 1 (fresh tt)
  /\ translate_text identity_provider auto_vi (lit "Hello") false 4500 3 1
       (fresh tt)
     = spec_translate_whole identity_provider auto_vi (lit "Hello") 4500 3 1
         (fresh tt).
Proof.
  assert (Hne : lit "Hello" <> []) by (vm_compute; discriminate).
  destruct (@translate_text_whole_unit _ unit identity_provider auto_vi
              (lit "Hello") 4500 3 1 (fresh tt) Hne) as [H1 H2].
  split; [exact Hne |]. split; [exact H1 |].
  apply H2. vm_compute. discriminate.
Defined.

(** C4, as stated, fails: when the budget is exhausted the invoker raises
    the provider's failure itself, not an [ExhaustedRetriesError]. *)
Lemma retry_translate_raises_provider_failure :
  fst (_retry_translate (flaky_provider 1) auto_vi (lit "x") 0 1 (fresh 0%nat))
  = Raise (ProviderError 0)
  /\ ~ (exists last,
          fst (_retry_translate (flaky_provider 1) auto_vi (lit "x") 0 1
                 (fresh 0%nat))
          = Raise (ExhaustedRetriesError last)).
Proof.
  split; [vm_compute; reflexivity |].
  intros [last H]. vm_compute in H. discriminate.
Qed.

Lemma retry_translate_counting_witness :
  _retry_translate (flaky_provider 2) auto_vi (lit "x") 3 1 (fresh 0%nat)
  = (Ok (lit "x"),
     World 3%nat
       (repeat (Call (lit "auto") (lit "vi") (lit "x")) 3)
       [delay 1 0; delay 1 1] 0%nat)
  /\ _retry_translate (flaky_provider 2) auto_vi (lit "x") 1 1 (fresh 0%nat)
     = (Raise (ProviderError 1),
        World 2%nat
          (repeat (Call (lit "auto") (lit "vi") (lit "x")) 2)
          [delay 1 0] 0%nat).
Proof.
  split.
  - apply (@retry_translate_counting _ 2 auto_vi (lit "x") 3 1 (fresh 0%nat));
      [lia | discriminate | | reflexivity | simpl; lia].
    intros i Hi. apply Nat.ltb_lt in Hi.
    destruct i as [| [| i]];
      [split; [lia | vm_compute; discriminate] ..
      | vm_compute in Hi; discriminate].
  - apply (@retry_translate_counting _ 2 auto_vi (lit "x") 1 1 (fresh 0%nat));
      [lia | discriminate | | reflexivity | simpl; lia].
    intros i Hi. apply Nat.ltb_lt in Hi.
    destruct i as [| i];
      [split; [lia | vm_compute; discriminate]
      | vm_compute in Hi; discriminate].
Defined.


(** C6, as stated, fails: a negative [retries] is not rejected, and
    neither is a call in which all three values are invalid; the provider
    is invoked and its answer returned. *)
Lemma translate_text_accepts_invalid_configuration :
  translate_text identity_provider auto_vi (lit "a") true 4500 (-1) 1 (fresh tt)
  = (Ok (lit "a"), logged (fresh tt) [Call (lit "auto") (lit "vi") (lit "a")])
  /\ translate_text identity_provider auto_vi (lit "a") false 0 (-1) (-1)
       (fresh tt)
     = (Ok (lit "a"), logged (fresh tt) [Call (lit "auto") (lit "vi") (lit "a")])
  /\ fst (translate_text identity_provider auto_vi (lit "a") true 4500 (-1) 1
            (fresh tt)) <> Raise ConfigurationError.
Proof.
  split; [vm_compute; reflexivity |].
  split; [vm_compute; reflexivity | vm_compute; discriminate].
Qed.

Lemma translate_text_unvalidated_witness :
  (translate_text identity_provider auto_vi (lit "a") true (-1) (-1) (-1)
     (fresh tt) = (Ok [], fresh tt)
   /\ _chunk_text (lit "a") (-1) = Ok [])
  /\ (forall preserve,
        translate_text identity_provider auto_vi (lit "a") preserve (-1) (-1)
          (-1) (fresh tt)
        = translate_text identity_provider auto_vi (lit "a") preserve (-1) 0
            (-1) (fresh tt))
  /\ translate_text identity_provider auto_vi (lit "a") false (-1) (-1) (-1)
       (fresh tt)
     = (Ok (lit "a"),
        World tt [Call (lit "auto") (lit "vi") (lit "a")] [] 0%nat).
Proof.
  destruct (@translate_text_unvalidated _ unit identity_provider auto_vi
              (lit "a") (-1) (-1) (-1) (fresh tt)) as [H1 [H2 H3]].
  split; [apply H1; lia |].
  split; [apply H2; lia |].
  apply (H3 (lit "a") tt); [vm_compute; discriminate | reflexivity].
Defined.

(** C9, as stated, fails: when the first of two items fails, the batch
    returns no result at all and the second item never reaches the
    provider. *)
Lemma translate_batch_blocked_by_failure :
  translate_batch (@accepting_new unit) (picky_provider (lit "x"))
    (static_languages []) ascii_lower
    (Batch [Item (lit "x") (lit "auto") (lit "vi");
            Item (lit "y") (lit "auto") (lit "vi")] true 4500 0 1)
    (fresh tt)
  = (Raise (HTTPException 500 (ProviderError 0)),
     World tt [Call (lit "auto") (lit "vi") (lit "x")] [] 1%nat)
  /\ translate_item (@accepting_new unit) (picky_provider (lit "x"))
       (static_languages []) ascii_lower
       (Batch [] true 4500 0 1) (Item (lit "y") (lit "auto") (lit "vi"))
       (fresh tt)
     = (Ok (lit "y"),
        World tt [Call (lit "auto") (lit "vi") (lit "y")] [] 1%nat).
Proof. split; vm_compute; reflexivity. Qed.

Lemma normalize_lang_auto_witness :
  (lit "AUTO" = [] \/ ascii_lower (lit "AUTO") = lit "auto")
  /\ _normalize_lang (static_languages [(lit "vietnamese", lit "vi")])
       ascii_lower (lit "AUTO") (fresh tt)
     = (Ok (lit "auto"), fresh tt)
  /\ ENVITranslator_init (@accepting_new unit)
       (static_languages [(lit "vietnamese", lit "vi")]) ascii_lower
       [] (lit "AUTO") (fresh tt)
     = (Ok (Translator (lit "auto") (lit "auto")), fresh tt).
Proof.
  assert (H : lit "AUTO" = [] \/ ascii_lower (lit "AUTO") = lit "auto")
    by (right; vm_compute; reflexivity).
  destruct (@normalize_lang_auto unit (@accepting_new unit)
              (static_languages [(lit "vietnamese", lit "vi")]) ascii_lower
              (lit "AUTO") (fresh tt) H) as [H1 [H2 H3]].
  split; [exact H |]. split; [exact H1 |].
  rewrite H3. reflexivity.
Defined.

End Scenarios.

(** * The structure of the segmenter's output *)

Section SegmenterStructure.

Variable m : Z.

Lemma pack_sentence_piece (st : list str * str) (s : str) :
  pack_sentence m st s = pack_piece m st (s_with_space s).
Proof.
  destruct st as [chunks buf]. unfold pack_sentence, pack_piece, s_with_space.
  destruct (is_empty buf) eqn:E; [reflexivity |].
  destruct (_ <=? m); reflexivity.
Qed.

Lemma pack_word_piece (st : list str * str) (w : str) :
  pack_word m st w = pack_piece m st (seg w).
Proof. destruct st. reflexivity. Qed.

Lemma fold_left_map (A B C : Type) (f : A -> C -> A) (g : B -> C) :
  forall l a, fold_left (fun a b => f a (g b)) l a = fold_left f (map g l) a.
Proof. induction l as [| b l IH]; intros a; simpl; [reflexivity | apply IH]. Qed.

Lemma fold_left_ext (A B : Type) (f g : A -> B -> A) :
  (forall a b, f a b = g a b) ->
  forall l a, fold_left f l a = fold_left g l a.
Proof.
  intros H. induction l as [| b l IH]; intros a; simpl; [reflexivity |].
  rewrite H. apply IH.
Qed.

Lemma s_with_space_nonempty (s : str) : nonempty (s_with_space s).
Proof.
  unfold s_with_space, nonempty. destruct (endswith s [LF]) eqn:E; simpl.
  - destruct s; discriminate.
  - apply app_nonempty_r. discriminate.
Qed.

Lemma seg_nonempty (w : str) : nonempty (seg w).
Proof. apply app_nonempty_r. discriminate. Qed.

Lemma concat_nonempty_nil (l : list str) :
  Forall nonempty l -> concat l = [] -> l = [].
Proof.
  intros Hl Hc. destruct l as [| x l']; [reflexivity |].
  inversion Hl as [| ? ? Hx _]; subst. simpl in Hc.
  destruct x; [elim Hx; reflexivity | discriminate].
Qed.

Lemma greedy_extend_last (groups : list (list str)) (cur : list str) (p : str) :
  cur <> [] -> greedy m (groups ++ [cur]) -> greedy m (groups ++ [cur ++ [p]]).
Proof.
  intros Hcur. induction groups as [| g rest IH]; simpl; [trivial |].
  destruct rest as [| g' rest']; simpl in *.
  - intros [H _]. split; [| trivial].
    destruct cur; [congruence | exact H].
  - intros [H Hr]. split; [exact H | apply IH; exact Hr].
Qed.

Lemma greedy_close (groups : list (list str)) (cur : list str) (p : str) :
  m < len (concat cur) + len p ->
  greedy m (groups ++ [cur]) -> greedy m ((groups ++ [cur]) ++ [[p]]).
Proof.
  intros Hp. induction groups as [| g rest IH]; simpl.
  - intros _. split; [exact Hp | trivial].
  - destruct rest as [| g' rest']; simpl in *.
    + intros [H _]. split; [exact H |]. split; [exact Hp | trivial].
    + intros [H Hr]. split; [exact H | apply IH; exact Hr].
Qed.

(** The state of a packing loop after the pieces [pre]: the chunks
    closed so far are the groups [groups], the buffer is the open group
    [cur]. *)
Lemma pack_fold_groups (out0 : list str) :
  forall pieces pre out buf groups cur,
    Forall nonempty pre -> Forall nonempty pieces ->
    out = out0 ++ map (@concat char) groups ->
    buf = concat cur ->
    concat groups ++ cur = pre ->
    Forall (packed_group m) groups ->
    (cur = [] -> groups = []) ->
    (cur <> [] -> packed_group m cur) ->
    greedy m (groups ++ [cur]) ->
    exists groups' cur',
      fold_left (pack_piece m) pieces (out, buf)
      = (out0 ++ map (@concat char) groups', concat cur')
      /\ concat groups' ++ cur' = pre ++ pieces
      /\ Forall (packed_group m) groups'
      /\ (cur' = [] -> groups' = [])
      /\ (cur' <> [] -> packed_group m cur')
      /\ greedy m (groups' ++ [cur']).
Proof.
  induction pieces as [| p pieces IH];
    intros pre out buf groups cur Hpre Hps Hout Hbuf Hcat Hg Hnil Hcur Hgr.
  - exists groups, cur. simpl. rewrite app_nil_r. subst.
    split; [reflexivity |]. split; [reflexivity |]. auto.
  - apply Forall_cons_iff in Hps. destruct Hps as [Hp Hps']. simpl fold_left.
    assert (Hcurne : Forall nonempty cur).
    { rewrite <- Hcat in Hpre. apply Forall_app in Hpre. tauto. }
    assert (Hpre' : Forall nonempty (pre ++ [p])).
    { apply Forall_app. split; [assumption | auto]. }
    replace (pre ++ p :: pieces) with ((pre ++ [p]) ++ pieces)
      by (rewrite <- app_assoc; reflexivity).
    destruct (is_empty buf) eqn:Eb.
    + assert (cur = []).
      { apply concat_nonempty_nil; [assumption |].
        destruct buf; [congruence | discriminate]. }
      subst cur. rewrite (Hnil eq_refl) in *. simpl in Hcat. subst pre.
      apply (IH [p] out p [] [p]); auto.
      * simpl. rewrite app_nil_r. reflexivity.
      * intros _. split; [discriminate | simpl; lia].
    + assert (Hc : cur <> []).
      { intros ->. subst buf. discriminate. }
      destruct (len buf + len p <=? m) eqn:Efit.
      * apply Z.leb_le in Efit.
        apply (IH (pre ++ [p]) out (buf ++ p) groups (cur ++ [p])); auto.
        -- subst buf. rewrite concat_app. simpl. rewrite app_nil_r.
           reflexivity.
        -- rewrite app_assoc, Hcat. reflexivity.
        -- intros E. destruct cur; discriminate.
        -- intros _. split; [destruct cur; discriminate |].
           intros _. rewrite concat_app. simpl. rewrite app_nil_r, len_app.
           subst buf. exact Efit.
        -- apply greedy_extend_last; assumption.
      * apply Z.leb_gt in Efit.
        apply (IH (pre ++ [p]) (out ++ [buf]) p (groups ++ [cur]) [p]); auto.
        -- subst out buf. rewrite map_app, app_assoc. reflexivity.
        -- simpl. rewrite app_nil_r. reflexivity.
        -- rewrite concat_app. simpl. rewrite app_nil_r, <- app_assoc.
           rewrite app_assoc, Hcat. reflexivity.
        -- apply Forall_app. split; [assumption | auto].
        -- discriminate.
        -- intros _. split; [discriminate | simpl; lia].
        -- apply greedy_close; [subst buf; lia | assumption].
Qed.

(** A packing loop and its final flush, on non-empty pieces: the chunks
    appended are the concatenations of consecutive groups of pieces. *)
Lemma pack_flush_groups (out0 pieces : list str) :
  Forall nonempty pieces ->
  exists groups,
    (let '(out, buf) := fold_left (pack_piece m) pieces (out0, []) in
     if negb (is_empty buf) then out ++ [buf] else out)
    = out0 ++ map (@concat char) groups
    /\ concat groups = pieces
    /\ Forall (packed_group m) groups
    /\ greedy m groups.
Proof.
  intros Hps.
  destruct (@pack_fold_groups out0 pieces [] out0 [] [] [])
    as [groups [cur [Hfold [Hcat [Hg [Hnil [Hcur Hgr]]]]]]]; auto.
  { simpl. rewrite app_nil_r. reflexivity. }
  { congruence. }
  { simpl. trivial. }
  rewrite Hfold. simpl in Hcat.
  destruct cur as [| c cur'].
  - rewrite (Hnil eq_refl) in *. exists []. simpl in *.
    rewrite app_nil_r. auto.
  - assert (Hne : is_empty (concat (c :: cur')) = false).
    { assert (Hc : nonempty c).
      { rewrite <- Hcat in Hps. apply Forall_app in Hps.
        destruct Hps as [_ Hps]. inversion Hps. assumption. }
      simpl. destruct c; [elim Hc; reflexivity | reflexivity]. }
    rewrite Hne. simpl negb. cbv iota.
    exists (groups ++ [c :: cur']).
    split; [| split; [| split]].
    + rewrite map_app, app_assoc. reflexivity.
    + rewrite concat_app. simpl concat at 2. rewrite app_nil_r. exact Hcat.
    + apply Forall_app. split; [assumption |].
      constructor; [apply Hcur; discriminate | constructor].
    + exact Hgr.
Qed.

(** X1. The sentence pass returns the concatenations of consecutive
    groups of padded sentences: the groups, flattened, are the sentences
    of [re.split] in order, each padded as [s_with_space]; no group is
    empty; a group of two sentences or more fits in [max_chars]; and a
    group was closed only when the next sentence did not fit after it. *)
Theorem sentence_pass_groups (text : str) :
  exists groups,
    sentence_pass m text = map (@concat char) groups
    /\ concat groups = map s_with_space (re_split_sentences text)
    /\ Forall (packed_group m) groups
    /\ greedy m groups.
Proof.
  unfold sentence_pass.
  rewrite (fold_left_ext _ _ pack_sentence_piece).
  rewrite (fold_left_map (pack_piece m) s_with_space).
  destruct (@pack_flush_groups [] (map s_with_space (re_split_sentences text)))
    as [groups H].
  { apply Forall_forall. intros p Hin. apply in_map_iff in Hin.
    destruct Hin as [x [<- _]]. apply s_with_space_nonempty. }
  exists groups. exact H.
Qed.

Lemma concat_map_concat (A : Type) (groups : list (list (list A))) :
  concat (map (@concat A) groups) = concat (concat groups).
Proof.
  induction groups as [| g gs IH]; simpl; [reflexivity |].
  rewrite concat_app, IH. reflexivity.
Qed.

Lemma concat_seg_split_space (ch : str) :
  concat (map seg (split_space ch)) = ch ++ [SPACE].
Proof.
  induction ch as [| c rest IH]; simpl; [reflexivity |].
  destruct (N.eqb_spec c SPACE) as [E | E].
  - subst c. simpl. rewrite IH. reflexivity.
  - pose proof (split_space_not_nil rest) as Hne.
    destruct (split_space rest) as [| x xs]; [congruence |].
    simpl in *. rewrite <- IH. reflexivity.
Qed.

(** X2. The word pass, on a chunk longer than [max_chars], appends the
    concatenations of consecutive groups of words, each word followed by
    one space: flattened they are the chunk plus one space at its end; no
    group is empty, a group of two words or more fits in [max_chars], and
    a group was closed only when the next word did not fit after it. *)
Theorem refine_chunk_groups (refined : list str) (ch : str) :
  m < len ch ->
  exists groups,
    refine_chunk m refined ch = refined ++ map (@concat char) groups
    /\ concat groups = map seg (split_space ch)
    /\ concat (concat groups) = ch ++ [SPACE]
    /\ Forall (packed_group m) groups
    /\ greedy m groups.
Proof.
  intros Hlong. unfold refine_chunk.
  destruct (len ch <=? m) eqn:E; [apply Z.leb_le in E; lia |].
  rewrite (fold_left_ext _ _ pack_word_piece).
  rewrite (fold_left_map (pack_piece m) seg).
  destruct (@pack_flush_groups refined (map seg (split_space ch)))
    as [groups [H1 [H2 [H3 H4]]]].
  { apply Forall_forall. intros p Hin. apply in_map_iff in Hin.
    destruct Hin as [x [<- _]]. apply seg_nonempty. }
  exists groups. split; [exact H1 |]. split; [exact H2 |].
  split; [| split; assumption].
  rewrite H2. apply concat_seg_split_space.
Qed.

Lemma concat_refine_chunk (refined : list str) (ch : str) :
  concat (refine_chunk m refined ch) = concat refined ++ pad m ch.
Proof.
  unfold pad, refine_chunk. destruct (len ch <=? m) eqn:E.
  - rewrite concat_app. simpl. rewrite app_nil_r. reflexivity.
  - rewrite (fold_left_ext _ _ pack_word_piece).
    rewrite (fold_left_map (pack_piece m) seg).
    destruct (@pack_flush_groups refined (map seg (split_space ch)))
      as [groups [H1 [H2 _]]].
    { apply Forall_forall. intros p Hin. apply in_map_iff in Hin.
      destruct Hin as [x [<- _]]. apply seg_nonempty. }
    rewrite H1, concat_app, concat_map_concat, H2, concat_seg_split_space.
    reflexivity.
Qed.

Lemma concat_word_pass (chunks : list str) :
  concat (word_pass m chunks) = concat (map (pad m) chunks).
Proof.
  unfold word_pass.
  assert (G : forall l refined,
             concat (fold_left (refine_chunk m) l refined)
             = concat refined ++ concat (map (pad m) l)).
  { induction l as [| ch l IH]; intros refined; simpl.
    - rewrite app_nil_r. reflexivity.
    - rewrite IH, concat_refine_chunk, <- app_assoc. reflexivity. }
  apply (G chunks []).
Qed.

(** *** The hard split *)

Lemma firstn_min_length (A : Type) (k : nat) (l : list A) :
  firstn (Nat.min k (length l)) l = firstn k l.
Proof.
  destruct (Nat.le_gt_cases k (length l)) as [H | H].
  - rewrite Nat.min_l by assumption. reflexivity.
  - rewrite Nat.min_r by lia. rewrite !firstn_all2 by lia. reflexivity.
Qed.

(** A slice of the hard split in terms of [firstn] and [skipn]. *)
Lemma py_slice_firstn_skipn (s : str) (i step : Z) :
  0 <= i -> 0 <= step ->
  py_slice s i (i + step) = firstn (Z.to_nat step) (skipn (Z.to_nat i) s).
Proof.
  intros Hi Hs. unfold py_slice, clamp_index.
  destruct (i <? 0) eqn:E1; [apply Z.ltb_lt in E1; lia |].
  destruct (i + step <? 0) eqn:E2; [apply Z.ltb_lt in E2; lia |].
  unfold len. destruct (Z.le_gt_cases i (Z.of_nat (length s))) as [H | H].
  - replace (Z.to_nat (Z.max 0 (Z.min i (Z.of_nat (length s)))))
      with (Z.to_nat i) by lia.
    rewrite <- (firstn_min_length (Z.to_nat step)).
    f_equal. rewrite length_skipn. lia.
  - rewrite (skipn_all2 s (n := Z.to_nat i)) by lia.
    rewrite firstn_nil.
    replace (Z.to_nat
               (Z.max 0 (Z.min (i + step) (Z.of_nat (length s)))
                - Z.max 0 (Z.min i (Z.of_nat (length s)))))
      with 0%nat by lia.
    reflexivity.
Qed.

Lemma concat_blocks_cover (k n : nat) :
  forall s, (length s <= n * k)%nat -> concat (blocks k n s) = s.
Proof.
  unfold blocks. induction n as [| n IH]; intros s Hlen.
  - simpl in *. destruct s; [reflexivity | simpl in Hlen; lia].
  - simpl seq. rewrite <- seq_shift. cbn [map concat]. rewrite map_map.
    rewrite Nat.mul_0_l. cbn [skipn].
    transitivity (firstn k s ++ skipn k s); [| apply firstn_skipn].
    f_equal. rewrite <- (IH (skipn k s)).
    + f_equal. apply map_ext. intros j. rewrite skipn_skipn.
      do 2 f_equal. lia.
    + rewrite length_skipn. simpl in Hlen. lia.
Qed.

(** The slices cut from a piece longer than the bound: they cover it
    exactly, and none is empty. *)
Lemma hard_cuts (ch : str) :
  1 <= m -> m < len ch ->
  exists idxs,
    py_range 0 (len ch) m = Ok idxs
    /\ concat (map (fun i => py_slice ch i (i + m)) idxs) = ch
    /\ Forall nonempty (map (fun i => py_slice ch i (i + m)) idxs)
    /\ idxs <> [].
Proof.
  intros Hm Hlong. unfold py_range.
  destruct (m =? 0) eqn:E0; [apply Z.eqb_eq in E0; lia |].
  destruct (0 <? m) eqn:E1; [| apply Z.ltb_ge in E1; lia].
  destruct (0 <? len ch) eqn:E2; [| apply Z.ltb_ge in E2; lia].
  eexists. split; [reflexivity |].
  set (L := len ch) in *. set (count := Z.to_nat ((L - 0 - 1) / m + 1)).
  assert (Hq : 0 <= (L - 0 - 1) / m) by (apply Z.div_pos; lia).
  assert (Hdm := Z.div_mod (L - 0 - 1) m ltac:(lia)).
  assert (Hmod := Z.mod_pos_bound (L - 0 - 1) m ltac:(lia)).
  assert (Hslice : forall k,
             py_slice ch (0 + Z.of_nat k * m) (0 + Z.of_nat k * m + m)
             = firstn (Z.to_nat m) (skipn (k * Z.to_nat m) ch)).
  { intros k. rewrite py_slice_firstn_skipn by nia.
    do 2 f_equal. nia. }
  rewrite map_map. rewrite (map_ext _ _ Hslice).
  fold (blocks (Z.to_nat m) count ch).
  split; [| split].
  - apply concat_blocks_cover. unfold L, len in *. unfold count. nia.
  - unfold blocks. apply Forall_forall. intros c Hin.
    apply in_map_iff in Hin. destruct Hin as [k [<- Hk]].
    apply in_seq in Hk. unfold nonempty.
    assert (Hk' : (k * Z.to_nat m < length ch)%nat).
    { unfold L, len in *. unfold count in Hk. nia. }
    intros Hnil. apply (f_equal (@length _)) in Hnil.
    rewrite length_firstn, length_skipn in Hnil. simpl in Hnil. lia.
  - unfold count. replace (Z.to_nat ((L - 0 - 1) / m + 1))
      with (S (Z.to_nat ((L - 0 - 1) / m))) by lia.
    discriminate.
Qed.

Lemma hard_split_concat :
  1 <= m ->
  forall refined final,
    Forall nonempty refined -> Forall nonempty final ->
    exists out,
      hard_split m refined final = Ok out
      /\ concat out = concat final ++ concat refined
      /\ Forall nonempty out
      /\ (refined <> [] \/ final <> [] -> out <> []).
Proof.
  intros Hm. induction refined as [| ch rest IH]; intros final Hr Hf; simpl.
  - exists final. rewrite app_nil_r. repeat split; auto.
    intros [H | H]; [congruence | assumption].
  - apply Forall_cons_iff in Hr. destruct Hr as [Hch Hrest].
    destruct (len ch <=? m) eqn:E.
    + destruct (IH (final ++ [ch])) as [out [H1 [H2 [H3 H4]]]]; auto.
      { apply Forall_snoc; assumption. }
      exists out. split; [exact H1 |]. split; [| split; [exact H3 |]].
      * rewrite H2, concat_app. simpl. rewrite app_nil_r, <- app_assoc.
        reflexivity.
      * intros _. apply H4. right. apply app_nonempty_r. discriminate.
    + apply Z.leb_gt in E.
      destruct (@hard_cuts ch Hm E) as [idxs [Hrange [Hcat [Hne Hidx]]]].
      rewrite Hrange. simpl.
      destruct (IH (final ++ map (fun i => py_slice ch i (i + m)) idxs))
        as [out [H1 [H2 [H3 H4]]]]; auto.
      { apply Forall_app. split; assumption. }
      exists out. split; [exact H1 |]. split; [| split; [exact H3 |]].
      * rewrite H2, concat_app, Hcat, <- app_assoc. reflexivity.
      * intros _. apply H4. right. apply app_nonempty_r.
        destruct idxs; [congruence | discriminate].
Qed.

(** For [max_chars >= 1] the segmenter returns; what its chunks are
    like, and what they concatenate to. *)
Lemma chunk_text_summary (text : str) :
  1 <= m ->
  exists chunks,
    _chunk_text text m = Ok chunks
    /\ concat chunks
       = (if len text <=? m then text
          else concat (map (pad m) (sentence_pass m text)))
    /\ (text <> [] -> chunks <> [] /\ Forall nonempty chunks)
    /\ Forall (fun c => len c <= m) chunks.
Proof.
  intros Hm. unfold _chunk_text. destruct (len text <=? m) eqn:E.
  - exists [text]. simpl. rewrite app_nil_r.
    split; [reflexivity |]. split; [reflexivity |]. split.
    + intros Hne. split; [discriminate |].
      constructor; [exact Hne | constructor].
    + constructor; [apply Z.leb_le; exact E | constructor].
  - destruct (sentence_pass_nonempty m text) as [Hs Hsn].
    destruct (@word_pass_nonempty m _ Hs Hsn) as [Hw Hwn].
    destruct (@hard_split_concat Hm (word_pass m (sentence_pass m text)) []
                Hw (Forall_nil _)) as [out [H1 [H2 [H3 H4]]]].
    destruct (@hard_split_bound m Hm (word_pass m (sentence_pass m text)) []
                (Forall_nil _)) as [out' [H1' Hb]].
    pose proof (eq_trans (eq_sym H1') H1) as Heq. inversion Heq. subst out'.
    exists out. split; [exact H1 |]. split; [| split; [| exact Hb]].
    + rewrite H2. simpl. apply concat_word_pass.
    + intros _. split; [apply H4; left; exact Hwn | exact H3].
Qed.

(** X3. For every text and every [max_chars >= 1], the chunks of
    [_chunk_text] concatenate to the text itself when it fits, and
    otherwise to the chunks of the sentence pass, each followed by one
    more space if it was longer than [max_chars]: the word pass and the
    hard split add nothing else and drop nothing. *)
Theorem chunk_text_concat (text : str) :
  1 <= m ->
  exists chunks,
    _chunk_text text m = Ok chunks
    /\ concat chunks
       = (if len text <=? m then text
          else concat (map (pad m) (sentence_pass m text))).
Proof.
  intros Hm.
  destruct (@chunk_text_summary text Hm) as [chunks [H1 [H2 _]]].
  exists chunks. split; assumption.
Qed.

(** X4. For every non-empty text and every [max_chars >= 1],
    [_chunk_text] returns at least one chunk and no chunk is the empty
    string. *)
Theorem chunk_text_chunks_nonempty (text : str) :
  1 <= m -> text <> [] ->
  exists chunks,
    _chunk_text text m = Ok chunks
    /\ chunks <> []
    /\ Forall nonempty chunks.
Proof.
  intros Hm Hne.
  destruct (@chunk_text_summary text Hm) as [chunks [H1 [_ [H3 _]]]].
  destruct (H3 Hne) as [Hnil Hall].
  exists chunks. split; [exact H1 |]. split; assumption.
Qed.

(** *** Characters that are not whitespace *)

Lemma letters_app (a b : str) : letters (a ++ b) = letters a ++ letters b.
Proof. apply filter_app. Qed.

Lemma letters_concat_map (f : str -> str) (l : list str) :
  (forall x, letters (f x) = letters x) ->
  letters (concat (map f l)) = letters (concat l).
Proof.
  intros Hf. induction l as [| x l IH]; simpl; [reflexivity |].
  rewrite !letters_app, Hf, IH. reflexivity.
Qed.

Lemma letters_s_with_space (s : str) : letters (s_with_space s) = letters s.
Proof.
  unfold s_with_space. destruct (negb (endswith s [LF])); [| reflexivity].
  rewrite letters_app. simpl. apply app_nil_r.
Qed.

Lemma letters_pad (ch : str) : letters (pad m ch) = letters ch.
Proof.
  unfold pad. destruct (len ch <=? m); [reflexivity |].
  rewrite letters_app. simpl. apply app_nil_r.
Qed.

Lemma letters_re_split (text : str) :
  forall st, letters (concat (re_split_from st text)) = letters text.
Proof.
  induction text as [| c rest IH]; intros st; simpl; [reflexivity |].
  destruct (isspace c) eqn:Ec; simpl.
  - destruct st; simpl; try rewrite concat_cons_first; simpl;
      try rewrite Ec; simpl; apply IH.
  - rewrite concat_cons_first. simpl. rewrite Ec. simpl. f_equal. apply IH.
Qed.

Lemma letters_sentence_pass (text : str) :
  letters (concat (sentence_pass m text)) = letters text.
Proof.
  unfold sentence_pass.
  rewrite (fold_left_ext _ _ pack_sentence_piece).
  rewrite (fold_left_map (pack_piece m) s_with_space).
  destruct (@pack_flush_groups [] (map s_with_space (re_split_sentences text)))
    as [groups [H1 [H2 _]]].
  { apply Forall_forall. intros p Hin. apply in_map_iff in Hin.
    destruct Hin as [x [<- _]]. apply s_with_space_nonempty. }
  rewrite H1. simpl. rewrite concat_map_concat, H2.
  rewrite (letters_concat_map _ _ letters_s_with_space).
  apply letters_re_split.
Qed.

Lemma chunk_text_letters_eq (text : str) (chunks : list str) :
  1 <= m -> _chunk_text text m = Ok chunks ->
  letters (concat chunks) = letters text.
Proof.
  intros Hm Hc.
  destruct (@chunk_text_summary text Hm) as [chunks' [H1 [H2 _]]].
  assert (chunks' = chunks) by congruence. subst chunks'. rewrite H2.
  destruct (len text <=? m); [reflexivity |].
  rewrite (letters_concat_map _ _ letters_pad).
  apply letters_sentence_pass.
Qed.

(** X5. For every text and every [max_chars >= 1], the chunks of
    [_chunk_text], concatenated, hold exactly the non-whitespace
    characters of the text, in the same order: segmentation inserts and
    removes whitespace only. *)
Theorem chunk_text_letters (text : str) :
  1 <= m ->
  exists chunks,
    _chunk_text text m = Ok chunks
    /\ letters (concat chunks) = letters text.
Proof.
  intros Hm.
  destruct (@chunk_text_summary text Hm) as [chunks [H1 _]].
  exists chunks. split; [exact H1 |].
  apply chunk_text_letters_eq; assumption.
Qed.

End SegmenterStructure.

(** * The retrying invoker against an arbitrary provider *)

Section RetryGeneral.

Context {runtime : Runtime}.
Variable P : Type.
Variable provider_translate : str -> str -> str -> P -> res str * P.
Variable self : ENVITranslator.
Variable text : str.
Variable retries : Z.
Variable backoff : Q.

Lemma retry_loop_calls :
  forall fuel a (w : world P),
    (Z.to_nat (retries - Z.of_nat a) <= fuel)%nat ->
    exists n,
      (1 <= n <= Z.to_nat (retries - Z.of_nat a) + 1)%nat
      /\ sent (snd (retry_loop provider_translate fuel self text retries
                      backoff (Z.of_nat a) w))
         = sent w ++ repeat (Call (source self) (target self) text) n
      /\ slept (snd (retry_loop provider_translate fuel self text retries
                       backoff (Z.of_nat a) w))
         = slept w ++ map (delay backoff) (seq a (n - 1))
      /\ catalog_reads (snd (retry_loop provider_translate fuel self text
                               retries backoff (Z.of_nat a) w))
         = catalog_reads w.
Proof.
  assert (Hone : forall (r : res str) (p' : P) (w : world P) (a : nat),
             exists n,
               (1 <= n <= Z.to_nat (retries - Z.of_nat a) + 1)%nat
               /\ sent (snd (r, World p' (sent w ++ [Call (source self)
                                                       (target self) text])
                                  (slept w) (catalog_reads w)))
                  = sent w ++ repeat (Call (source self) (target self) text) n
               /\ slept (snd (r, World p' (sent w ++ [Call (source self)
                                                        (target self) text])
                                   (slept w) (catalog_reads w)))
                  = slept w ++ map (delay backoff) (seq a (n - 1))
               /\ catalog_reads
                    (snd (r, World p' (sent w ++ [Call (source self)
                                                    (target self) text])
                               (slept w) (catalog_reads w)))
                  = catalog_reads w).
  { intros r p' w a. exists 1%nat. simpl. rewrite app_nil_r.
    repeat split; lia. }
  induction fuel as [| fuel IH]; intros a w Hfuel;
    rewrite retry_loop_unfold; unfold try_except, translator_translate;
    destruct (provider_translate (source self) (target self) text (remote w))
      as [[out | e |] p']; try apply Hone;
    (destruct (Z.of_nat a + 1 >? retries) eqn:Egt; [apply Hone |]);
    (assert (Hle : Z.of_nat a + 1 <= retries)
      by (rewrite Z.gtb_ltb in Egt; apply Z.ltb_ge in Egt; lia));
    replace (Z.of_nat a + 1 - 1) with (Z.of_nat a) by lia;
    match goal with
    | |- context [bind (lift (float_mul_pow2 ?b ?x))
                    (fun d => bind (time_sleep d) (fun _ => ?next)) ?w0] =>
        destruct (@pause_cases _ _ _ b x next w0) as [H | [err H]]; rewrite H;
        [| apply Hone]
    end;
    fold (delay backoff a).
  - lia.
  - replace (Z.of_nat a + 1) with (Z.of_nat (S a)) by lia.
    match goal with
    | |- context [retry_loop _ fuel _ _ _ _ _ ?w0] =>
        destruct (IH (S a) w0) as [n [Hn [Hs [Hd Hc]]]]; [lia |]
    end.
    exists (S n). rewrite Hs, Hd, Hc. cbn [remote sent slept catalog_reads].
    split; [lia |]. split; [| split; [| reflexivity]].
    + rewrite <- app_assoc. reflexivity.
    + rewrite <- app_assoc. f_equal.
      replace (S n - 1)%nat with (S (n - 1)) by lia. reflexivity.
Qed.

(** X6. Against any provider and for any [retries] and [backoff], one
    run of [_retry_translate] invokes the provider with its text at least
    once and at most [max(retries, 0) + 1] times, sleeps exactly one
    delay between two consecutive invocations, the [i]-th being
    [backoff * 2 ** i], and sends nothing else. *)
Theorem retry_translate_calls (w : world P) :
  exists n,
    (1 <= n <= Z.to_nat retries + 1)%nat
    /\ sent (snd (_retry_translate provider_translate self text retries
                    backoff w))
       = sent w ++ repeat (Call (source self) (target self) text) n
    /\ slept (snd (_retry_translate provider_translate self text retries
                     backoff w))
       = slept w ++ map (delay backoff) (seq 0 (n - 1))
    /\ catalog_reads (snd (_retry_translate provider_translate self text
                             retries backoff w))
       = catalog_reads w.
Proof.
  unfold _retry_translate.
  destruct (@retry_loop_calls (Z.to_nat retries) 0%nat w) as [n H].
  { simpl. lia. }
  simpl Z.of_nat in H. rewrite Z.sub_0_r in H. exists n. exact H.
Qed.

(** X7. With a negative [backoff] of at most [SLEEP_SURE] seconds in
    absolute value and [retries >= 1], a first call that fails is not
    retried: [time.sleep] raises [ValueError], which replaces the
    provider's failure, after exactly one invocation.  (A negative delay
    further from zero is converted first, and can raise [OverflowError]
    instead.) *)
Theorem retry_translate_negative_backoff (w : world P) (e : exn) (p' : P) :
  (backoff < 0)%Q ->
  (- SLEEP_SURE <= backoff)%Q ->
  1 <= retries ->
  provider_translate (source self) (target self) text (remote w)
  = (Raise e, p') ->
  _retry_translate provider_translate self text retries backoff w
  = (Raise ValueError,
     World p' (sent w ++ [Call (source self) (target self) text])
       (slept w) (catalog_reads w)).
Proof.
  intros Hb Hlo Hr Hcall. unfold _retry_translate. rewrite retry_loop_unfold.
  unfold try_except, translator_translate. rewrite Hcall.
  replace (0 + 1 >? retries) with false
    by (symmetry; rewrite Z.gtb_ltb; apply Z.ltb_ge; lia).
  unfold bind, lift. change (0 + 1 - 1) with 0.
  rewrite float_mul_pow2_zero, time_sleep_negative by assumption.
  reflexivity.
Qed.

(** Beyond [SLEEP_SURE] seconds the runtime decides: if it refuses the
    first delay, its error replaces the provider's failure. *)
Lemma retry_translate_long_delay (w : world P) (e err : exn) (p' : P) :
  (SLEEP_SURE < backoff)%Q ->
  (backoff < inject_Z FLOAT_LIMIT)%Q ->
  long_sleep backoff = Some err ->
  1 <= retries ->
  provider_translate (source self) (target self) text (remote w)
  = (Raise e, p') ->
  _retry_translate provider_translate self text retries backoff w
  = (Raise err,
     World p' (sent w ++ [Call (source self) (target self) text])
       (slept w) (catalog_reads w)).
Proof.
  intros Hlo Hhi Hrt Hr Hcall. unfold _retry_translate.
  rewrite retry_loop_unfold.
  unfold try_except, translator_translate. rewrite Hcall.
  replace (0 + 1 >? retries) with false
    by (symmetry; rewrite Z.gtb_ltb; apply Z.ltb_ge; lia).
  unfold bind, lift. change (0 + 1 - 1) with 0.
  rewrite float_mul_pow2_zero.
  unfold time_sleep, is_infinite.
  assert (H1 : Qle_bool (inject_Z FLOAT_LIMIT) backoff = false).
  { destruct (Qle_bool (inject_Z FLOAT_LIMIT) backoff) eqn:E;
      [| reflexivity].
    apply Qle_bool_iff in E.
    exfalso. apply (Qlt_not_le _ _ Hhi). exact E. }
  assert (H2 : Qle_bool backoff (- inject_Z FLOAT_LIMIT) = false).
  { destruct (Qle_bool backoff (- inject_Z FLOAT_LIMIT)) eqn:E;
      [| reflexivity].
    apply Qle_bool_iff in E.
    exfalso. apply (Qlt_not_le _ _ Hlo).
    eapply Qle_trans; [exact E |]. discriminate. }
  assert (H3 : Qle_bool backoff SLEEP_SURE = false).
  { destruct (Qle_bool backoff SLEEP_SURE) eqn:E; [| reflexivity].
    apply Qle_bool_iff in E.
    exfalso. apply (Qlt_not_le _ _ Hlo). exact E. }
  rewrite H1, H2, H3, Bool.andb_false_r, Hrt. reflexivity.
Qed.

End RetryGeneral.

(** * The orchestrator against an arbitrary provider *)

Section OrchestratorGeneral.

Context {runtime : Runtime}.
Variable P : Type.
Variable provider_translate : str -> str -> str -> P -> res str * P.
Variable self : ENVITranslator.
Variable m : Z.
Variable retries : Z.
Variable backoff : Q.

Lemma hard_split_returns (refined : list str) :
  forall final, hard_split m refined final <> OutOfFuel.
Proof.
  induction refined as [| ch rest IH]; intros final; simpl; [discriminate |].
  destruct (len ch <=? m); [apply IH |].
  unfold py_range. destruct (m =? 0); simpl; [discriminate | apply IH].
Qed.

Lemma chunk_text_returns (text : str) : _chunk_text text m <> OutOfFuel.
Proof.
  unfold _chunk_text. destruct (len text <=? m); [discriminate |].
  apply hard_split_returns.
Qed.

Lemma for_each_returns (A B : Type) (body : A -> M P B) :
  (forall a w, fst (body a w) <> OutOfFuel) ->
  forall l w, fst (for_each body l w) <> OutOfFuel.
Proof.
  intros Hbody. induction l as [| a rest IH]; intros w; simpl;
    [discriminate |].
  unfold bind. specialize (Hbody a w).
  destruct (body a w) as [[b | e |] w1]; simpl in *;
    [| discriminate | congruence].
  specialize (IH w1).
  destruct (for_each body rest w1) as [[bs | e |] w2]; simpl in *;
    [discriminate | discriminate | congruence].
Qed.

Lemma retry_translate_returns (text : str) (w : world P) :
  (forall src tgt x p, fst (provider_translate src tgt x p) <> OutOfFuel) ->
  fst (_retry_translate provider_translate self text retries backoff w)
  <> OutOfFuel.
Proof.
  intros Hp H. unfold _retry_translate in H.
  apply retry_loop_fuel in H; [| simpl; lia].
  destruct H as [src [tgt [x [p H]]]]. exact (Hp src tgt x p H).
Qed.

Lemma translate_line_returns (line : str) (w : world P) :
  (forall src tgt x p, fst (provider_translate src tgt x p) <> OutOfFuel) ->
  fst (translate_line provider_translate self m retries backoff line w)
  <> OutOfFuel.
Proof.
  intros Hp. unfold translate_line.
  destruct (is_empty (strip line)); [discriminate |].
  unfold bind at 1. unfold lift.
  pose proof (chunk_text_returns line) as Hc.
  destruct (_chunk_text line m) as [chunks | e |];
    [| discriminate | congruence].
  unfold bind.
  pose proof (@for_each_returns _ _
                (fun chunk => _retry_translate provider_translate self chunk
                                retries backoff)
                (fun a w0 => @retry_translate_returns a w0 Hp) chunks w) as Hf.
  destruct (for_each _ chunks w) as [[ts | e |] w1]; simpl in *;
    [discriminate | discriminate | congruence].
Qed.

(** X8. [translate_text] always comes to an end: whenever every call of
    the provider returns (with a translation or an exception), so does
    [translate_text], in both modes and for every configuration; the
    [while True] loop of the invoker stops within [retries] retries. *)
Theorem translate_text_returns (text : str) (preserve : bool) (w : world P) :
  (forall src tgt x p, fst (provider_translate src tgt x p) <> OutOfFuel) ->
  fst (translate_text provider_translate self text preserve m retries
         backoff w) <> OutOfFuel.
Proof.
  intros Hp. unfold translate_text.
  destruct (is_empty text); [discriminate |].
  destruct preserve; cbn [negb].
  - unfold bind.
    pose proof (@for_each_returns _ _
                  (translate_line provider_translate self m retries backoff)
                  (fun a w0 => @translate_line_returns a w0 Hp)
                  (splitlines text) w) as Hf.
    destruct (for_each _ (splitlines text) w) as [[outs | e |] w1];
      simpl in *; [discriminate | discriminate | congruence].
  - apply retry_translate_returns. exact Hp.
Qed.

(** *** The requests of a run *)

Lemma translate_line_requests (line : str) (w : world P) :
  1 <= m ->
  exists calls,
    sent (snd (translate_line provider_translate self m retries backoff
                 line w)) = sent w ++ calls
    /\ Forall (fun c => call_source c = source self
                        /\ call_target c = target self
                        /\ 1 <= len (call_text c) <= m) calls.
Proof.
  intros Hm. unfold translate_line. rewrite strip_empty_blank.
  destruct (is_blank line) eqn:Eb.
  { exists []. simpl. rewrite app_nil_r. split; [reflexivity | constructor]. }
  assert (Hne : line <> []) by (intros Hnil; subst line; discriminate).
  destruct (@chunk_text_summary m line Hm) as [chunks [Hc [_ [Hn Hb]]]].
  destruct (Hn Hne) as [_ Hall].
  unfold bind at 1. unfold lift. rewrite Hc.
  destruct (@for_each_sent _ _ _
              (fun chunk => _retry_translate provider_translate self chunk
                              retries backoff)
              (fun chunk c => c = Call (source self) (target self) chunk))
    with (l := chunks) (w := w) as [calls [Hs Hq]].
  { intros chunk w0. unfold _retry_translate.
    destruct (@retry_loop_sent _ _ provider_translate self chunk retries backoff
                (Z.to_nat retries) 0 w0) as [n Hn'].
    eexists. split; [exact Hn' |].
    apply Forall_forall. intros c Hin. apply repeat_spec in Hin. exact Hin. }
  exists calls. split; [rewrite bind_ret_snd; exact Hs |].
  eapply Forall_impl; [| exact Hq]. intros c [chunk [Hin Hc']]. subst c.
  simpl. split; [reflexivity |]. split; [reflexivity |].
  rewrite Forall_forall in Hall, Hb. specialize (Hall chunk Hin).
  specialize (Hb chunk Hin). split; [| exact Hb].
  destruct chunk; [elim Hall; reflexivity |]. unfold len. simpl. lia.
Qed.

(** X9. With [preserve_format = true] and [max_chars >= 1], every request
    a run of [translate_text] sends to the provider, successful or not,
    carries the translator's source and target and a text of at least 1
    and at most [max_chars] characters. *)
Theorem translate_text_requests_bounded (text : str) (w : world P) :
  1 <= m ->
  exists calls,
    sent (snd (translate_text provider_translate self text true m retries
                 backoff w)) = sent w ++ calls
    /\ Forall (fun c => call_source c = source self
                        /\ call_target c = target self
                        /\ 1 <= len (call_text c) <= m) calls.
Proof.
  intros Hm. unfold translate_text. destruct (is_empty text).
  { exists []. simpl. rewrite app_nil_r. split; [reflexivity | constructor]. }
  cbn [negb].
  destruct (@for_each_sent _ _ _
              (translate_line provider_translate self m retries backoff)
              (fun _ c => call_source c = source self
                          /\ call_target c = target self
                          /\ 1 <= len (call_text c) <= m))
    with (l := splitlines text) (w := w) as [calls [Hs Hq]].
  { intros line w0. apply translate_line_requests. exact Hm. }
  exists calls. split; [rewrite bind_ret_snd; exact Hs |].
  eapply Forall_impl; [| exact Hq]. intros c [_ [_ H]]. exact H.
Qed.

(** *** A provider that always answers *)

Section Answering.

Variable f : str -> str -> str -> str.
Hypothesis provider_answers :
  forall src tgt text p, provider_translate src tgt text p = (Ok (f src tgt text), p).

Lemma retry_translate_answer (text : str) (w : world P) :
  _retry_translate provider_translate self text retries backoff w
  = (Ok (f (source self) (target self) text),
     logged w [Call (source self) (target self) text]).
Proof.
  unfold _retry_translate.
  rewrite (@retry_loop_first_success _ _ _ _ _ _ _ _ _ w
             (f (source self) (target self) text) (remote w))
    by apply provider_answers.
  reflexivity.
Qed.

Lemma for_each_answer (chunks : list str) :
  forall w,
    for_each (fun chunk => _retry_translate provider_translate self chunk
                             retries backoff) chunks w
    = (Ok (map (f (source self) (target self)) chunks),
       logged w (map (Call (source self) (target self)) chunks)).
Proof.
  induction chunks as [| c rest IH]; intros w; simpl.
  - rewrite logged_nil. reflexivity.
  - unfold bind. rewrite retry_translate_answer, IH. simpl.
    rewrite logged_logged. reflexivity.
Qed.

Lemma chunk_text_ok (line : str) :
  m <> 0 -> _chunk_text line m = Ok (chunks_of m line).
Proof.
  intros Hm. unfold chunks_of.
  destruct (Z.lt_ge_cases m 0) as [Hneg | Hpos].
  - rewrite chunk_text_negative by assumption. reflexivity.
  - destruct (@chunk_text_summary m line) as [chunks [Hc _]]; [lia |].
    rewrite Hc. reflexivity.
Qed.

Lemma translate_line_answer (line : str) (w : world P) :
  m <> 0 ->
  translate_line provider_translate self m retries backoff line w
  = (Ok (line_image f self m line), logged w (line_calls self m line)).
Proof.
  intros Hm. unfold translate_line, line_image, line_calls.
  rewrite strip_empty_blank. destruct (is_blank line).
  - rewrite logged_nil. reflexivity.
  - unfold bind, lift. rewrite chunk_text_ok by assumption.
    rewrite for_each_answer. reflexivity.
Qed.

Lemma translate_lines_answer (lines : list str) :
  m <> 0 ->
  forall w,
    for_each (translate_line provider_translate self m retries backoff)
      lines w
    = (Ok (map (line_image f self m) lines),
       logged w (flat_map (line_calls self m) lines)).
Proof.
  intros Hm. induction lines as [| line rest IH]; intros w; simpl.
  - rewrite logged_nil. reflexivity.
  - unfold bind. rewrite translate_line_answer by assumption.
    rewrite IH. simpl. rewrite logged_logged. reflexivity.
Qed.

(** X10. Against a provider that answers [f source target text] to every
    request, and with [max_chars <> 0], [translate_text] with
    [preserve_format = true] returns the lines of the document in order,
    a blank line as it is and any other line as the concatenation of the
    answers to its chunks; the requests made are exactly the chunks of
    the non-blank lines, in document order, one request per chunk. *)
Theorem translate_text_answering (d : str) (w : world P) :
  m <> 0 ->
  translate_text provider_translate self d true m retries backoff w
  = (Ok (concat (map (line_image f self m) (splitlines d))),
     logged w (flat_map (line_calls self m) (splitlines d))).
Proof.
  intros Hm. unfold translate_text. destruct d as [| c0 d0].
  { simpl. rewrite logged_nil. reflexivity. }
  assert (Hne : is_empty (c0 :: d0) = false) by reflexivity.
  remember (c0 :: d0) as d eqn:Hd. clear Hd. rewrite Hne. cbn [negb].
  unfold bind. rewrite translate_lines_answer by assumption. reflexivity.
Qed.

End Answering.

(** X11. With the no-op provider and [max_chars >= 1], whatever the
    lengths of the lines, [translate_text] with [preserve_format = true]
    succeeds and its output holds exactly the non-whitespace characters
    of the document, in the same order. *)
Theorem translate_text_identity_letters (d : str) (w : world P) :
  (forall src tgt text p, provider_translate src tgt text p = (Ok text, p)) ->
  1 <= m ->
  exists out w',
    translate_text provider_translate self d true m retries backoff w
    = (Ok out, w')
    /\ letters out = letters d.
Proof.
  intros Hid Hm.
  assert (Hm0 : m <> 0) by lia.
  assert (Hrun : translate_text provider_translate self d true m retries
                   backoff w
                 = (Ok (concat (map (line_image (fun _ _ x => x) self m)
                                  (splitlines d))),
                    logged w (flat_map (line_calls self m) (splitlines d)))).
  { unfold translate_text. destruct (is_empty d) eqn:Ee.
    - destruct d; [| discriminate]. simpl. rewrite logged_nil. reflexivity.
    - cbn [negb]. unfold bind.
      rewrite (@translate_lines_answer (fun _ _ x => x) Hid) by assumption.
      reflexivity. }
  eexists. eexists. split; [exact Hrun |].
  rewrite <- (concat_splitlines d) at 2.
  apply letters_concat_map. intros line. unfold line_image.
  destruct (is_blank line); [reflexivity |]. rewrite map_id.
  apply (@chunk_text_letters_eq m line); [exact Hm |].
  apply chunk_text_ok. exact Hm0.
Qed.

(** X12. When [translate_text] with [preserve_format = true] raises, it
    is at the first line that fails: the lines before it were translated
    in turn, the failing line is not blank, its exception is the one
    raised, and the world is the one that line left: the lines after it
    are never sent to the provider. *)
Theorem translate_text_fails_fast (text : str) (w w' : world P) (e : exn) :
  translate_text provider_translate self text true m retries backoff w
  = (Raise e, w') ->
  exists done line rest outs w1,
    splitlines text = done ++ line :: rest
    /\ runs_ok (translate_line provider_translate self m retries backoff)
         done w outs w1
    /\ is_blank line = false
    /\ translate_line provider_translate self m retries backoff line w1
       = (Raise e, w').
Proof.
  unfold translate_text. destruct (is_empty text); [discriminate |].
  cbn [negb]. unfold bind.
  pose proof (@for_each_runs _ _ _
                (translate_line provider_translate self m retries backoff)
                (splitlines text) w) as H.
  destruct (for_each _ (splitlines text) w) as [[outs | e0 |] w1];
    try discriminate.
  intros Heq. inversion Heq; subst e0 w1.
  destruct H as [done [line [rest [outs [w1 [Hl [Hrun Hfail]]]]]]].
  exists done, line, rest, outs, w1. repeat split; try assumption.
  destruct (is_blank line) eqn:Eb; [| reflexivity].
  unfold translate_line in Hfail. rewrite strip_empty_blank, Eb in Hfail.
  discriminate.
Qed.

End OrchestratorGeneral.

(** * Language normalisation against an arbitrary catalogue *)

Section NormalizeGeneral.

Variable P : Type.
Variable provider_languages : P -> res (list (str * str)) * P.
Variable lower : str -> str.

Lemma str_eqb_eq (a b : str) : str_eqb a b = true -> a = b.
Proof.
  unfold str_eqb. destruct (list_eq_dec N.eq_dec a b); [auto | discriminate].
Qed.

Lemma dict_get_in (A : Type) (d : list (str * A)) (key : str) (v : A) :
  dict_get d key = Some v -> In (key, v) d.
Proof.
  induction d as [| [k v0] rest IH]; simpl; [discriminate |].
  destruct (dict_get rest key) as [v' |].
  - intros H. inversion H; subst. right. apply IH. reflexivity.
  - destruct (str_eqb k key) eqn:E; [| discriminate].
    intros H. inversion H; subst. apply str_eqb_eq in E. subst. left.
    reflexivity.
Qed.

Lemma dict_get_none (A : Type) (d : list (str * A)) (key : str) :
  dict_get d key = None -> forall v, ~ In (key, v) d.
Proof.
  induction d as [| [k v0] rest IH]; simpl; [tauto |].
  destruct (dict_get rest key) as [v' |]; [discriminate |].
  destruct (str_eqb k key) eqn:E; [discriminate |].
  intros _ v [H | H].
  - inversion H; subst. rewrite str_eqb_refl in E. discriminate.
  - exact (IH eq_refl v H).
Qed.

(** A run that reaches the catalogue: one read, whose failure leaves an
    empty mapping. *)
Lemma normalize_lang_run (lang : str) (w : world P)
    (r : res (list (str * str))) (p' : P) :
  lang <> [] -> lower lang <> lit "auto" ->
  provider_languages (remote w) = (r, p') ->
  _normalize_lang provider_languages lower lang w
  = (match r with
     | Ok mapping => Ok (resolve lower mapping lang)
     | Raise _ => Ok (resolve lower [] lang)
     | OutOfFuel => OutOfFuel
     end,
     World p' (sent w) (slept w) (S (catalog_reads w))).
Proof.
  intros Hne Hauto Hcat. unfold _normalize_lang.
  destruct lang as [| c0 l0]; [congruence |].
  change (is_empty (c0 :: l0)) with false. cbv iota.
  destruct (str_eqb (lower (c0 :: l0)) (lit "auto")) eqn:E.
  { apply str_eqb_eq in E. contradiction. }
  unfold bind, try_except, get_supported_languages. rewrite Hcat.
  unfold resolve, lookup_key, ret.
  destruct r as [mapping | e |]; cbv beta iota; cbn [map dict_get];
    [| | reflexivity];
    repeat match goal with
           | |- context [match dict_get ?d ?k with _ => _ end] =>
               destruct (dict_get d k)
           end; reflexivity.
Qed.

(** X13. [_normalize_lang] never raises: whenever the catalogue call
    returns, be it with an exception, the result is a language string;
    no translation request is made, nothing is slept, and the catalogue
    is read at most once. *)
Theorem normalize_lang_never_raises (lang : str) (w : world P) :
  fst (provider_languages (remote w)) <> OutOfFuel ->
  exists code w',
    _normalize_lang provider_languages lower lang w = (Ok code, w')
    /\ sent w' = sent w
    /\ slept w' = slept w
    /\ (catalog_reads w' <= S (catalog_reads w))%nat.
Proof.
  intros Hret.
  destruct lang as [| c0 l0].
  { exists (lit "auto"), w. repeat split. lia. }
  destruct (list_eq_dec N.eq_dec (lower (c0 :: l0)) (lit "auto")) as [E | E].
  { exists (lit "auto"), w. unfold _normalize_lang.
    change (is_empty (c0 :: l0)) with false. cbv iota.
    rewrite E, str_eqb_refl. repeat split. lia. }
  destruct (provider_languages (remote w)) as [r p'] eqn:Hcat.
  rewrite (@normalize_lang_run (c0 :: l0) w r p'); try assumption;
    [| discriminate].
  simpl in Hret. destruct r as [mapping | e |]; [| | congruence];
    eexists; eexists; (split; [reflexivity |]); simpl; repeat split; lia.
Qed.

(** X14. The string [_normalize_lang] returns is never made up: it is
    ["auto"], or a code of the provider's catalogue, or one of the alias
    targets [zh-CN], [zh-TW], [pt], or the input itself, unchanged. *)
Theorem normalize_lang_result (lang code : str) (w w' : world P) :
  _normalize_lang provider_languages lower lang w = (Ok code, w') ->
  code = lit "auto"
  \/ (exists mapping p',
        provider_languages (remote w) = (Ok mapping, p')
        /\ In code (map snd mapping))
  \/ In code [lit "zh-CN"; lit "zh-TW"; lit "pt"]
  \/ code = lang.
Proof.
  intros Hrun.
  destruct lang as [| c0 l0].
  { inversion Hrun. left. reflexivity. }
  destruct (list_eq_dec N.eq_dec (lower (c0 :: l0)) (lit "auto")) as [E | E].
  { unfold _normalize_lang in Hrun.
    change (is_empty (c0 :: l0)) with false in Hrun. cbv iota in Hrun.
    rewrite E, str_eqb_refl in Hrun. inversion Hrun.
    left. reflexivity. }
  destruct (provider_languages (remote w)) as [r p'] eqn:Hcat.
  rewrite (@normalize_lang_run (c0 :: l0) w r p') in Hrun; try assumption;
    [| discriminate].
  assert (Hres : forall mapping,
             resolve lower mapping (c0 :: l0) = code ->
             In code (map snd mapping)
             \/ In code [lit "zh-CN"; lit "zh-TW"; lit "pt"]
             \/ code = c0 :: l0).
  { intros mapping Hr. unfold resolve in Hr.
    destruct (dict_get (map (fun nc : str * str => (lower (snd nc), snd nc))
                          mapping) _) as [c |] eqn:E1.
    { subst c. apply dict_get_in in E1. apply in_map_iff in E1.
      destruct E1 as [nc [Heq Hin]]. inversion Heq. left.
      apply in_map. exact Hin. }
    destruct (dict_get (map (fun nc : str * str => (lower (fst nc), snd nc))
                          mapping) _) as [c |] eqn:E2.
    { subst c. apply dict_get_in in E2. apply in_map_iff in E2.
      destruct E2 as [nc [Heq Hin]]. inversion Heq. left.
      apply in_map. exact Hin. }
    destruct (dict_get alias _) as [c |] eqn:E3.
    { subst c. apply dict_get_in in E3. right. left. simpl in E3.
      destruct E3 as [H | [H | [H | [H | []]]]]; inversion H; simpl; auto. }
    right. right. congruence. }
  destruct r as [mapping | e |]; [| | discriminate];
    injection Hrun as Hc Hw.
  - destruct (Hres _ Hc) as [H | H]; [| right; right; exact H].
    right. left. exists mapping, p'. split; [reflexivity | exact H].
  - destruct (Hres _ Hc) as [H | H]; [destruct H | right; right; exact H].
Qed.

(** X15. Codes are looked up without regard to case: when the lookup key
    of [lang] (lower-cased, stripped, [_] replaced by [-]) is the
    lower-cased form of some code of the catalogue, [_normalize_lang]
    returns a code of the catalogue with that lower-cased form, in the
    catalogue's own spelling. *)
Theorem normalize_lang_code_lookup (lang name code : str) (w : world P)
    (mapping : list (str * str)) (p' : P) :
  lang <> [] -> lower lang <> lit "auto" ->
  provider_languages (remote w) = (Ok mapping, p') ->
  In (name, code) mapping ->
  lookup_key lower lang = lower code ->
  exists c,
    fst (_normalize_lang provider_languages lower lang w) = Ok c
    /\ In c (map snd mapping)
    /\ lower c = lower code.
Proof.
  intros Hne Hauto Hcat Hin Hkey.
  rewrite (@normalize_lang_run lang w (Ok mapping) p') by assumption.
  simpl. unfold resolve.
  destruct (dict_get (map (fun nc : str * str => (lower (snd nc), snd nc))
                        mapping) (lookup_key lower lang)) as [c |] eqn:E1.
  - exists c. split; [reflexivity |]. apply dict_get_in in E1.
    apply in_map_iff in E1. destruct E1 as [nc [Heq Hnc]].
    inversion Heq as [[Hk Hc]]. split.
    + apply in_map. exact Hnc.
    + rewrite Hk. exact Hkey.
  - exfalso. apply (dict_get_none _ _ E1 code). apply in_map_iff.
    exists (name, code). simpl. rewrite Hkey. split; [reflexivity | exact Hin].
Qed.

(** X16. Names are looked up without regard to case, after codes: when
    the lookup key of [lang] is the lower-cased form of no code of the
    catalogue but of some name of it, [_normalize_lang] returns the code
    the catalogue gives for a name with that lower-cased form. *)
Theorem normalize_lang_name_lookup (lang name code : str) (w : world P)
    (mapping : list (str * str)) (p' : P) :
  lang <> [] -> lower lang <> lit "auto" ->
  provider_languages (remote w) = (Ok mapping, p') ->
  (forall nc, In nc mapping -> lower (snd nc) <> lookup_key lower lang) ->
  In (name, code) mapping ->
  lookup_key lower lang = lower name ->
  exists name' c,
    fst (_normalize_lang provider_languages lower lang w) = Ok c
    /\ In (name', c) mapping
    /\ lower name' = lower name.
Proof.
  intros Hne Hauto Hcat Hnocode Hin Hkey.
  rewrite (@normalize_lang_run lang w (Ok mapping) p') by assumption.
  simpl. unfold resolve.
  destruct (dict_get (map (fun nc : str * str => (lower (snd nc), snd nc))
                        mapping) (lookup_key lower lang)) as [c |] eqn:E1.
  { apply dict_get_in in E1. apply in_map_iff in E1.
    destruct E1 as [nc [Heq Hnc]]. inversion Heq as [[Hk Hc]].
    elim (Hnocode nc Hnc). exact Hk. }
  destruct (dict_get (map (fun nc : str * str => (lower (fst nc), snd nc))
                        mapping) (lookup_key lower lang)) as [c |] eqn:E2.
  - apply dict_get_in in E2. apply in_map_iff in E2.
    destruct E2 as [[n' c'] [Heq Hnc]]. simpl in Heq.
    inversion Heq as [[Hk Hc]]. subst c'.
    exists n', c. split; [reflexivity |]. split; [exact Hnc |].
    rewrite Hk. exact Hkey.
  - exfalso. apply (dict_get_none _ _ E2 code). apply in_map_iff.
    exists (name, code). simpl. rewrite Hkey. split; [reflexivity | exact Hin].
Qed.

(** X17. When the catalogue cannot be read (the call raises), or holds
    neither a code nor a name with the lookup key of [lang], the result
    is the alias of the key if it has one ([zh-cn], [zh-tw], [pt-br],
    [pt-pt]) and otherwise [lang] exactly as given, neither lower-cased
    nor stripped. *)
Theorem normalize_lang_fallback (lang : str) (w : world P)
    (r : res (list (str * str))) (p' : P) :
  lang <> [] -> lower lang <> lit "auto" ->
  provider_languages (remote w) = (r, p') ->
  r <> OutOfFuel ->
  (forall mapping nc,
      r = Ok mapping -> In nc mapping ->
      lower (snd nc) <> lookup_key lower lang /\ lower (fst nc) <> lookup_key lower lang) ->
  fst (_normalize_lang provider_languages lower lang w)
  = Ok (match dict_get alias (lookup_key lower lang) with
        | Some code => code
        | None => lang
        end).
Proof.
  intros Hne Hauto Hcat Hret Hnomatch.
  rewrite (@normalize_lang_run lang w r p') by assumption. simpl.
  destruct r as [mapping | e |]; [| reflexivity | congruence].
  f_equal. unfold resolve.
  destruct (dict_get (map (fun nc : str * str => (lower (snd nc), snd nc))
                        mapping) (lookup_key lower lang)) as [c |] eqn:E1.
  { apply dict_get_in in E1. apply in_map_iff in E1.
    destruct E1 as [nc [Heq Hnc]]. inversion Heq as [[Hk Hc]].
    destruct (Hnomatch mapping nc eq_refl Hnc) as [H _]. contradiction. }
  destruct (dict_get (map (fun nc : str * str => (lower (fst nc), snd nc))
                        mapping) (lookup_key lower lang)) as [c |] eqn:E2.
  { apply dict_get_in in E2. apply in_map_iff in E2.
    destruct E2 as [nc [Heq Hnc]]. inversion Heq as [[Hk Hc]].
    destruct (Hnomatch mapping nc eq_refl Hnc) as [_ H]. contradiction. }
  reflexivity.
Qed.

End NormalizeGeneral.

(** * The endpoints against an arbitrary provider *)

Section EndpointGeneral.

Context {runtime : Runtime}.
Variable P : Type.
Variable provider_new : str -> str -> P -> res unit * P.
Variable provider_translate : str -> str -> str -> P -> res str * P.
Variable provider_languages : P -> res (list (str * str)) * P.
Variable lower : str -> str.

Lemma for_each_app (A B : Type) (body : A -> M P B) (l1 l2 : list A) :
  forall w,
    for_each body (l1 ++ l2) w
    = match for_each body l1 w with
      | (Ok b1, w1) =>
          match for_each body l2 w1 with
          | (Ok b2, w2) => (Ok (b1 ++ b2), w2)
          | (Raise e, w2) => (Raise e, w2)
          | (OutOfFuel, w2) => (OutOfFuel, w2)
          end
      | (Raise e, w1) => (Raise e, w1)
      | (OutOfFuel, w1) => (OutOfFuel, w1)
      end.
Proof.
  induction l1 as [| a rest IH]; intros w; simpl.
  - destruct (for_each body l2 w) as [[b2 | e |] w2]; reflexivity.
  - unfold bind. destruct (body a w) as [[b | e |] w1]; try reflexivity.
    rewrite IH.
    destruct (for_each body rest w1) as [[b1 | e |] w2]; try reflexivity.
    unfold ret.
    destruct (for_each body l2 w2) as [[b2 | e |] w3]; reflexivity.
Qed.

(** X18. A batch composes: translating the items [l1 ++ l2] is
    translating [l1] and then, in the world that left and only if it
    succeeded, [l2]; the results are appended in order, and the first
    failure is the failure of the whole. *)
Theorem translate_batch_app (l1 l2 : list BatchTranslateItem)
    (preserve : bool) (m r : Z) (b : Q) (w : world P) :
  translate_batch provider_new provider_translate provider_languages lower
    (Batch (l1 ++ l2) preserve m r b) w
  = match translate_batch provider_new provider_translate provider_languages
            lower (Batch l1 preserve m r b) w with
    | (Ok o1, w1) =>
        match translate_batch provider_new provider_translate
                provider_languages lower (Batch l2 preserve m r b) w1 with
        | (Ok o2, w2) => (Ok (o1 ++ o2), w2)
        | (Raise e, w2) => (Raise e, w2)
        | (OutOfFuel, w2) => (OutOfFuel, w2)
        end
    | (Raise e, w1) => (Raise e, w1)
    | (OutOfFuel, w1) => (OutOfFuel, w1)
    end.
Proof.
  unfold translate_batch, try_except. cbn [items].
  change (translate_item provider_new provider_translate provider_languages
            lower (Batch (l1 ++ l2) preserve m r b))
    with (translate_item provider_new provider_translate provider_languages
            lower (Batch l1 preserve m r b)).
  change (translate_item provider_new provider_translate provider_languages
            lower (Batch l2 preserve m r b))
    with (translate_item provider_new provider_translate provider_languages
            lower (Batch l1 preserve m r b)).
  rewrite for_each_app.
  destruct (for_each _ l1 w) as [[o1 | e |] w1]; try reflexivity.
  destruct (for_each _ l2 w1) as [[o2 | e |] w2]; reflexivity.
Qed.

(** X19. For fields within the bounds declared on [TranslateRequest],
    which the single-translation endpoint requires and the batch endpoint
    does not check, a batch of one item is the single-translation
    endpoint: the same world, the same failure, and on success the
    one-element list of the translation that [translate] returns for the
    same fields. *)
Theorem translate_batch_single (text src tgt : str) (preserve : bool)
    (m r : Z) (b : Q) (w : world P) :
  valid_request (Request text src tgt preserve m r b) ->
  translate_batch provider_new provider_translate provider_languages lower
    (Batch [Item text src tgt] preserve m r b) w
  = match translate provider_new provider_translate provider_languages lower
            (Request text src tgt preserve m r b) w with
    | (Ok resp, w') => (Ok [translated resp], w')
    | (Raise e, w') => (Raise e, w')
    | (OutOfFuel, w') => (OutOfFuel, w')
    end.
Proof.
  intros _. unfold translate_batch, translate, try_except, translate_item.
  cbn [items for_each item_source item_target item_text preserve_format
       max_chars retries retry_backoff_sec req_source req_target req_text
       req_preserve_format req_max_chars req_retries req_retry_backoff_sec].
  unfold bind.
  destruct (ENVITranslator_init provider_new provider_languages lower src tgt w)
    as [[tr | e |] w1]; try reflexivity.
  destruct (translate_text provider_translate tr text preserve m r b w1)
    as [[out | e |] w2]; reflexivity.
Qed.

(** *** Where an exception comes from *)

(** Within the declared bounds a delay is at most [10 * 2 ** 9]
    seconds. *)
Lemma delay_within_bounds (b : Q) (e : Z) :
  (0 <= b)%Q -> (b <= 10)%Q -> e <= 9 ->
  (0 <= b * inject_Z (2 ^ e))%Q /\ (b * inject_Z (2 ^ e) <= SLEEP_SURE)%Q.
Proof.
  intros H0 H10 He.
  assert (Hp : 0 <= 2 ^ e <= 512).
  { destruct (Z.lt_ge_cases e 0) as [Hn | Hn].
    - rewrite Z.pow_neg_r by assumption. lia.
    - split; [apply Z.pow_nonneg; lia |].
      change 512 with (2 ^ 9). apply Z.pow_le_mono_r; lia. }
  split.
  - apply Qmult_le_0_compat; [assumption |]. unfold Qle. simpl. lia.
  - destruct b as [n d]. unfold Qle in *. simpl in *. nia.
Qed.

Lemma retry_loop_raise (self : ENVITranslator) (text : str) (r : Z) (b : Q)
    (e : exn) :
  (0 <= b)%Q -> (b <= 10)%Q -> r <= 10 ->
  forall fuel attempt (w : world P),
    fst (retry_loop provider_translate fuel self text r b attempt w) = Raise e ->
    exists p, fst (provider_translate (source self) (target self) text p)
              = Raise e.
Proof.
  intros Hb Hb10 Hr. induction fuel as [| fuel IH]; intros attempt w;
    rewrite retry_loop_unfold; unfold try_except, translator_translate;
    destruct (provider_translate (source self) (target self) text (remote w))
      as [[out | e0 |] p'] eqn:Ep; simpl; try discriminate;
    (destruct (attempt + 1 >? r) eqn:Egt;
     [ intros H; inversion H; subst; exists (remote w); rewrite Ep;
       reflexivity | ]);
    (assert (Hle : attempt + 1 - 1 <= 9)
      by (rewrite Z.gtb_ltb in Egt; apply Z.ltb_ge in Egt; lia));
    (destruct (@delay_within_bounds b (attempt + 1 - 1) Hb Hb10 Hle)
      as [Hd0 Hd1]);
    rewrite pause_sure by (assumption || lia).
  - simpl. discriminate.
  - apply IH.
Qed.

Lemma for_each_raise (A B : Type) (body : A -> M P B) (e : exn) :
  forall l w,
    fst (for_each body l w) = Raise e ->
    exists a w1, In a l /\ fst (body a w1) = Raise e.
Proof.
  induction l as [| a rest IH]; intros w; simpl; [discriminate |].
  unfold bind. destruct (body a w) as [[b | e0 |] w1] eqn:Eb; simpl.
  - specialize (IH w1).
    destruct (for_each body rest w1) as [[bs | e1 |] w2]; simpl in *;
      try discriminate.
    intros H. destruct (IH H) as [a' [w' [Hin Hr]]].
    exists a', w'. split; [right; assumption | assumption].
  - intros H. inversion H; subst. exists a, w. rewrite Eb.
    split; [left; reflexivity | reflexivity].
  - discriminate.
Qed.

Lemma bind_ret_raise (A B : Type) (mm : M P A) (g : A -> B) (w : world P)
    (e : exn) :
  fst (bind mm (fun a => ret (g a)) w) = Raise e -> fst (mm w) = Raise e.
Proof.
  unfold bind. destruct (mm w) as [[a | e0 |] w1]; simpl; intros H;
    [discriminate | inversion H; reflexivity | discriminate].
Qed.

Lemma translate_text_raise (self : ENVITranslator) (text : str)
    (preserve : bool) (m r : Z) (b : Q) (w : world P) (e : exn) :
  1 <= m -> (0 <= b)%Q -> (b <= 10)%Q -> r <= 10 ->
  fst (translate_text provider_translate self text preserve m r b w) = Raise e ->
  exists src tgt x p, fst (provider_translate src tgt x p) = Raise e.
Proof.
  intros Hm Hb Hb10 Hr10. unfold translate_text.
  destruct (is_empty text); [discriminate |].
  destruct preserve; cbn [negb].
  - intros Hf. apply bind_ret_raise in Hf.
    apply for_each_raise in Hf. destruct Hf as [line [w1 [_ Hl]]].
    unfold translate_line in Hl.
    destruct (is_empty (strip line)); [discriminate |].
    unfold bind at 1 in Hl. unfold lift in Hl.
    destruct (@chunk_text_summary m line Hm) as [chunks [Hc _]].
    rewrite Hc in Hl. apply bind_ret_raise in Hl.
    apply for_each_raise in Hl. destruct Hl as [chunk [w2 [_ Hr]]].
    unfold _retry_translate in Hr. apply retry_loop_raise in Hr;
      [| assumption ..].
    destruct Hr as [p Hp]. exists (source self), (target self), chunk, p.
    exact Hp.
  - unfold _retry_translate. intros H. apply retry_loop_raise in H;
      [| assumption ..].
    destruct H as [p Hp]. exists (source self), (target self), text, p.
    exact Hp.
Qed.

Lemma normalize_lang_no_raise (lang : str) (w : world P) (e : exn) :
  fst (_normalize_lang provider_languages lower lang w) <> Raise e.
Proof.
  destruct lang as [| c0 l0]; [discriminate |].
  destruct (list_eq_dec N.eq_dec (lower (c0 :: l0)) (lit "auto")) as [E | E].
  { unfold _normalize_lang. change (is_empty (c0 :: l0)) with false.
    cbv iota. rewrite E, str_eqb_refl. discriminate. }
  destruct (provider_languages (remote w)) as [r p'] eqn:Hcat.
  rewrite (@normalize_lang_run _ _ _ (c0 :: l0) w r p'); try assumption;
    [| discriminate].
  destruct r; discriminate.
Qed.

Lemma init_raise (src tgt : str) (w : world P) (e : exn) :
  fst (ENVITranslator_init provider_new provider_languages lower src tgt w)
  = Raise e ->
  exists s t p, fst (provider_new s t p) = Raise e.
Proof.
  unfold ENVITranslator_init. unfold bind at 1.
  pose proof (@normalize_lang_no_raise src w) as H1.
  destruct (_normalize_lang provider_languages lower src w)
    as [[ns | e1 |] w1]; simpl in *;
    [| intros H; elim (H1 e1); reflexivity | discriminate].
  unfold bind at 1.
  pose proof (@normalize_lang_no_raise tgt w1) as H2.
  destruct (_normalize_lang provider_languages lower tgt w1)
    as [[nt | e2 |] w2]; simpl in *;
    [| intros H; elim (H2 e2); reflexivity | discriminate].
  unfold bind, translator_new.
  destruct (provider_new ns nt (remote w2)) as [[[] | e3 |] p'] eqn:Ep;
    simpl; try discriminate.
  intros H. inversion H; subst. exists ns, nt, (remote w2). rewrite Ep.
  reflexivity.
Qed.

(** X20. For a request within the declared bounds, the only failure of
    the single-translation endpoint is [HTTPException 500] carrying an
    exception that the provider raised, in its constructor or in its
    [translate]: neither segmentation nor the back-off can fail. *)
Theorem translate_failure_from_provider (req : TranslateRequest)
    (w w' : world P) (e : exn) :
  valid_request req ->
  translate provider_new provider_translate provider_languages lower req w
  = (Raise e, w') ->
  exists cause,
    e = HTTPException 500 cause
    /\ from_provider provider_new provider_translate cause.
Proof.
  intros [[Hm _] [[_ Hr] [Hb Hb10]]]. unfold translate, try_except, raise.
  destruct (bind _ _ w) as [[resp | e0 |] w1] eqn:Erun; try discriminate.
  intros H. inversion H; subst. exists e0. split; [reflexivity |].
  unfold bind in Erun.
  destruct (ENVITranslator_init provider_new provider_languages lower
              (req_source req) (req_target req) w) as [[tr | e1 |] w2] eqn:Ei.
  - destruct (translate_text provider_translate tr (req_text req)
                (req_preserve_format req) (req_max_chars req)
                (req_retries req) (req_retry_backoff_sec req) w2)
      as [[out | e2 |] w3] eqn:Et; try discriminate.
    inversion Erun; subst. right.
    apply (@translate_text_raise tr (req_text req) (req_preserve_format req)
             (req_max_chars req) (req_retries req) (req_retry_backoff_sec req)
             w2); [lia | assumption .. | rewrite Et; reflexivity].
  - inversion Erun; subst. left.
    apply (@init_raise (req_source req) (req_target req) w).
    rewrite Ei. reflexivity.
  - discriminate.
Qed.

End EndpointGeneral.

(** * When the sentence pass is enough *)

Section SegmenterExact.

Variable m : Z.

Lemma word_pass_fits (chunks : list str) :
  Forall (fun c => len c <= m) chunks ->
  forall refined, fold_left (refine_chunk m) chunks refined = refined ++ chunks.
Proof.
  induction chunks as [| ch rest IH]; intros Hfit refined; simpl.
  - rewrite app_nil_r. reflexivity.
  - apply Forall_cons_iff in Hfit. destruct Hfit as [Hch Hrest].
    unfold refine_chunk at 2. apply Z.leb_le in Hch. rewrite Hch.
    rewrite (IH Hrest), <- app_assoc. reflexivity.
Qed.

Lemma hard_split_fits (refined : list str) :
  Forall (fun c => len c <= m) refined ->
  forall final, hard_split m refined final = Ok (final ++ refined).
Proof.
  induction refined as [| ch rest IH]; intros Hfit final; simpl.
  - rewrite app_nil_r. reflexivity.
  - apply Forall_cons_iff in Hfit. destruct Hfit as [Hch Hrest].
    apply Z.leb_le in Hch. rewrite Hch.
    rewrite (IH Hrest), <- app_assoc. reflexivity.
Qed.

Lemma In_concat (A : Type) (x : A) (g : list A) (groups : list (list A)) :
  In g groups -> In x g -> In x (concat groups).
Proof.
  intros Hg Hx. apply in_concat. exists g. split; assumption.
Qed.

(** X21. When every sentence of a text longer than [max_chars], padded
    as the sentence loop pads it, fits in [max_chars], [_chunk_text]
    returns exactly the chunks of the sentence pass: no chunk is cut at a
    word or at a character, every chunk fits, and the chunks concatenate
    to the padded sentences in order. *)
Theorem chunk_text_sentences_only (text : str) :
  m < len text ->
  Forall (fun s => len (s_with_space s) <= m) (re_split_sentences text) ->
  _chunk_text text m = Ok (sentence_pass m text)
  /\ Forall (fun c => len c <= m) (sentence_pass m text)
  /\ concat (sentence_pass m text)
     = concat (map s_with_space (re_split_sentences text)).
Proof.
  intros Hlong Hfit.
  assert (Hpieces : exists groups,
             sentence_pass m text = map (@concat char) groups
             /\ concat groups = map s_with_space (re_split_sentences text)
             /\ Forall (packed_group m) groups).
  { unfold sentence_pass.
    rewrite (fold_left_ext _ _ (@pack_sentence_piece m)).
    rewrite (fold_left_map (pack_piece m) s_with_space).
    destruct (@pack_flush_groups m []
                (map s_with_space (re_split_sentences text)))
      as [groups [H1 [H2 [H3 _]]]].
    { apply Forall_forall. intros p Hin. apply in_map_iff in Hin.
      destruct Hin as [x [<- _]]. apply s_with_space_nonempty. }
    exists groups. auto. }
  destruct Hpieces as [groups [Hs [Hc Hp]]].
  assert (Hall : Forall (fun c => len c <= m) (sentence_pass m text)).
  { rewrite Hs. apply Forall_forall. intros c Hin. apply in_map_iff in Hin.
    destruct Hin as [g [<- Hg]].
    rewrite Forall_forall in Hp. destruct (Hp g Hg) as [Hne Hmany].
    destruct g as [| p [| q rest]];
      [elim Hne; reflexivity | | apply Hmany; simpl; lia].
    simpl. rewrite app_nil_r.
    assert (Hin : In p (map s_with_space (re_split_sentences text))).
    { rewrite <- Hc. apply (@In_concat _ p [p] groups Hg). left. reflexivity. }
    apply in_map_iff in Hin. destruct Hin as [s0 [<- Hs0]].
    rewrite Forall_forall in Hfit. apply Hfit. exact Hs0. }
  split; [| split; [exact Hall |]].
  - unfold _chunk_text.
    destruct (len text <=? m) eqn:E; [apply Z.leb_le in E; lia |].
    unfold word_pass. rewrite (word_pass_fits Hall). simpl.
    rewrite (hard_split_fits Hall). reflexivity.
  - rewrite Hs, concat_map_concat, Hc. reflexivity.
Qed.

End SegmenterExact.

(** * What the constructor touches *)

Section ConstructorEffects.

Variable P : Type.
Variable provider_new : str -> str -> P -> res unit * P.
Variable provider_languages : P -> res (list (str * str)) * P.
Variable lower : str -> str.

Lemma normalize_lang_effects (lang : str) (w : world P) :
  sent (snd (_normalize_lang provider_languages lower lang w)) = sent w
  /\ slept (snd (_normalize_lang provider_languages lower lang w)) = slept w
  /\ (catalog_reads (snd (_normalize_lang provider_languages lower lang w))
      <= S (catalog_reads w))%nat.
Proof.
  destruct lang as [| c0 l0]; [simpl; repeat split; lia |].
  destruct (list_eq_dec N.eq_dec (lower (c0 :: l0)) (lit "auto")) as [E | E].
  { unfold _normalize_lang. change (is_empty (c0 :: l0)) with false.
    cbv iota. rewrite E, str_eqb_refl. simpl. repeat split; lia. }
  destruct (provider_languages (remote w)) as [r p'] eqn:Hcat.
  rewrite (@normalize_lang_run _ _ _ (c0 :: l0) w r p'); try assumption;
    [| discriminate].
  simpl. repeat split; lia.
Qed.

(** X22. Constructing a translator sends no translation request and
    sleeps not at all, whatever the outcome, and reads the language
    catalogue at most twice (once for each of source and target that is
    neither empty nor ["auto"]). *)
Theorem init_effects (src tgt : str) (w : world P) :
  sent (snd (ENVITranslator_init provider_new provider_languages lower
               src tgt w)) = sent w
  /\ slept (snd (ENVITranslator_init provider_new provider_languages lower
                   src tgt w)) = slept w
  /\ (catalog_reads (snd (ENVITranslator_init provider_new provider_languages
                            lower src tgt w))
      <= catalog_reads w + 2)%nat.
Proof.
  unfold ENVITranslator_init, bind, translator_new, ret.
  destruct (@normalize_lang_effects src w) as [Hs1 [Hd1 Hc1]].
  destruct (_normalize_lang provider_languages lower src w)
    as [[ns | e |] w1]; simpl in Hs1, Hd1, Hc1;
    try (simpl; split; [assumption | split; [assumption | lia]]).
  destruct (@normalize_lang_effects tgt w1) as [Hs2 [Hd2 Hc2]].
  destruct (_normalize_lang provider_languages lower tgt w1)
    as [[nt | e |] w2]; simpl in Hs2, Hd2, Hc2;
    try (simpl; split; [congruence | split; [congruence | lia]]).
  destruct (provider_new ns nt (remote w2)) as [[[] | e |] p']; simpl;
    (split; [congruence | split; [congruence | lia]]).
Qed.

End ConstructorEffects.

(** * Further scenarios *)

Section FurtherScenarios.

#[local] Existing Instance strict_runtime.

Lemma refine_chunk_groups_witness :
  3 < len (lit "ab cd ef")
  /\ exists groups,
       refine_chunk 3 [] (lit "ab cd ef") = [] ++ map (@concat char) groups
       /\ concat groups = map seg (split_space (lit "ab cd ef"))
       /\ concat (concat groups) = lit "ab cd ef" ++ [SPACE]
       /\ Forall (packed_group 3) groups
       /\ greedy 3 groups.
Proof.
  assert (H : 3 < len (lit "ab cd ef")) by (vm_compute; reflexivity).
  split; [exact H |].
  apply (@refine_chunk_groups 3 [] (lit "ab cd ef") H).
Defined.

Lemma chunk_text_concat_witness :
  exists chunks,
    _chunk_text (lit "Hello there. How are you?") 12 = Ok chunks
    /\ concat chunks
       = (if len (lit "Hello there. How are you?") <=? 12
          then lit "Hello there. How are you?"
          else concat (map (pad 12)
                         (sentence_pass 12 (lit "Hello there. How are you?")))).
Proof.
  apply (@chunk_text_concat 12 (lit "Hello there. How are you?")). lia.
Defined.

Lemma chunk_text_chunks_nonempty_witness :
  exists chunks,
    _chunk_text (lit "Hello there. How are you?") 12 = Ok chunks
    /\ chunks <> []
    /\ Forall nonempty chunks.
Proof.
  apply (@chunk_text_chunks_nonempty 12 (lit "Hello there. How are you?"));
    [lia | vm_compute; discriminate].
Defined.

Lemma chunk_text_letters_witness :
  exists chunks,
    _chunk_text (lit "Hello there. How are you?") 12 = Ok chunks
    /\ letters (concat chunks) = letters (lit "Hello there. How are you?").
Proof.
  apply (@chunk_text_letters 12 (lit "Hello there. How are you?")). lia.
Defined.

Lemma retry_translate_negative_backoff_witness :
  _retry_translate raising_provider auto_vi (lit "x") 3 (-1) (fresh 0%nat)
  = (Raise ValueError,
     World 1%nat [Call (lit "auto") (lit "vi") (lit "x")] [] 0%nat).
Proof.
  apply (@retry_translate_negative_backoff _ nat raising_provider auto_vi
           (lit "x") 3 (-1) (fresh 0%nat) (ProviderError 0) 1%nat);
    [reflexivity | discriminate | lia | reflexivity].
Defined.

(** From the 1025th failure on the delay cannot be computed, whatever
    [backoff] is: [2 ** 1024] does not convert to a float. *)
Example retry_translate_delay_overflow :
  let run :=
    _retry_translate raising_provider auto_vi (lit "x") 2000 0 (fresh 0%nat) in
  fst run = Raise OverflowError
  /\ length (sent (snd run)) = 1025%nat
  /\ length (slept (snd run)) = 1024%nat.
Proof. vm_compute. repeat split. Qed.

Lemma translate_text_returns_witness :
  fst (translate_text identity_provider auto_vi two_paragraphs true 4500 3 1
         (fresh tt)) <> OutOfFuel.
Proof.
  apply translate_text_returns. intros src tgt x p. discriminate.
Defined.

Lemma translate_text_requests_bounded_witness :
  exists calls,
    sent (snd (translate_text identity_provider auto_vi
                 (lit "Hello there. How are you?") true 12 3 1 (fresh tt)))
    = sent (fresh tt) ++ calls
    /\ Forall (fun c => call_source c = source auto_vi
                        /\ call_target c = target auto_vi
                        /\ 1 <= len (call_text c) <= 12) calls.
Proof.
  apply translate_text_requests_bounded. lia.
Defined.

Lemma translate_text_answering_witness :
  translate_text identity_provider auto_vi two_paragraphs true 4500 3 1
    (fresh tt)
  = (Ok (concat (map (line_image (fun _ _ x => x) auto_vi 4500)
                   (splitlines two_paragraphs))),
     logged (fresh tt)
       (flat_map (line_calls auto_vi 4500) (splitlines two_paragraphs))).
Proof.
  apply (@translate_text_answering _ unit identity_provider auto_vi 4500 3 1
           (fun _ _ x => x)).
  - intros src tgt text p. reflexivity.
  - lia.
Defined.

Lemma translate_text_identity_letters_witness :
  exists out w',
    translate_text identity_provider auto_vi
      (lit "Hello there. How are you?") true 12 3 1 (fresh tt)
    = (Ok out, w')
    /\ letters out = letters (lit "Hello there. How are you?").
Proof.
  apply translate_text_identity_letters.
  - intros src tgt text p. reflexivity.
  - lia.
Defined.

Lemma translate_text_fails_fast_witness :
  exists done line rest outs w1,
    splitlines three_lines = done ++ line :: rest
    /\ runs_ok (translate_line (picky_provider refused_line) auto_vi 4500 0 1)
         done (fresh tt) outs w1
    /\ is_blank line = false
    /\ translate_line (picky_provider refused_line) auto_vi 4500 0 1 line w1
       = (Raise (ProviderError 0),
          World tt [Call (lit "auto") (lit "vi") (lit "ok" ++ [LF]);
                    Call (lit "auto") (lit "vi") (lit "x" ++ [LF])] [] 0%nat).
Proof.
  apply (@translate_text_fails_fast _ unit (picky_provider refused_line) auto_vi
           4500 0 1 three_lines (fresh tt)).
  vm_compute. reflexivity.
Defined.

Lemma normalize_lang_never_raises_witness :
  exists code w',
    _normalize_lang (@failing_languages unit) ascii_lower (lit "ZH_tw")
      (fresh tt) = (Ok code, w')
    /\ sent w' = sent (fresh tt)
    /\ slept w' = slept (fresh tt)
    /\ (catalog_reads w' <= S (catalog_reads (fresh tt)))%nat.
Proof.
  apply normalize_lang_never_raises. simpl. discriminate.
Defined.

Lemma normalize_lang_result_witness :
  lit "vi" = lit "auto"
  \/ (exists mapping p',
        static_languages [(lit "vietnamese", lit "vi")] (remote (fresh tt))
        = (Ok mapping, p')
        /\ In (lit "vi") (map snd mapping))
  \/ In (lit "vi") [lit "zh-CN"; lit "zh-TW"; lit "pt"]
  \/ lit "vi" = lit "Vietnamese".
Proof.
  apply (@normalize_lang_result unit
           (static_languages [(lit "vietnamese", lit "vi")]) ascii_lower
           (lit "Vietnamese") (lit "vi") (fresh tt)
           (World tt [] [] 1%nat)).
  vm_compute. reflexivity.
Defined.

Lemma normalize_lang_code_lookup_witness :
  exists c,
    fst (_normalize_lang
           (static_languages [(lit "chinese (simplified)", lit "zh-CN")])
           ascii_lower (lit "ZH_cn") (fresh tt)) = Ok c
    /\ In c (map snd [(lit "chinese (simplified)", lit "zh-CN")])
    /\ ascii_lower c = ascii_lower (lit "zh-CN").
Proof.
  apply (@normalize_lang_code_lookup unit
           (static_languages [(lit "chinese (simplified)", lit "zh-CN")])
           ascii_lower (lit "ZH_cn") (lit "chinese (simplified)") (lit "zh-CN")
           (fresh tt) [(lit "chinese (simplified)", lit "zh-CN")] tt).
  - vm_compute. discriminate.
  - vm_compute. discriminate.
  - reflexivity.
  - left. reflexivity.
  - vm_compute. reflexivity.
Defined.

Lemma normalize_lang_name_lookup_witness :
  exists name' c,
    fst (_normalize_lang (static_languages [(lit "vietnamese", lit "vi")])
           ascii_lower (lit " Vietnamese") (fresh tt)) = Ok c
    /\ In (name', c) [(lit "vietnamese", lit "vi")]
    /\ ascii_lower name' = ascii_lower (lit "vietnamese").
Proof.
  apply (@normalize_lang_name_lookup unit
           (static_languages [(lit "vietnamese", lit "vi")])
           ascii_lower (lit " Vietnamese") (lit "vietnamese") (lit "vi")
           (fresh tt) [(lit "vietnamese", lit "vi")] tt).
  - vm_compute. discriminate.
  - vm_compute. discriminate.
  - reflexivity.
  - intros nc [H | []]. subst nc. vm_compute. discriminate.
  - left. reflexivity.
  - vm_compute. reflexivity.
Defined.

Lemma normalize_lang_fallback_witness :
  fst (_normalize_lang (@failing_languages unit) ascii_lower (lit "ZH_tw")
         (fresh tt))
  = Ok (match dict_get alias (lookup_key ascii_lower (lit "ZH_tw")) with
        | Some code => code
        | None => lit "ZH_tw"
        end).
Proof.
  apply (@normalize_lang_fallback unit (@failing_languages unit) ascii_lower
           (lit "ZH_tw") (fresh tt) (Raise (ProviderError 7)) tt).
  - vm_compute. discriminate.
  - vm_compute. discriminate.
  - reflexivity.
  - discriminate.
  - intros mapping nc H. discriminate.
Defined.

Lemma translate_batch_single_witness :
  valid_request (Request (lit "x") (lit "auto") (lit "vi") true 4500 3 1)
  /\ translate_batch (@accepting_new unit) identity_provider
       (static_languages []) ascii_lower
       (Batch [Item (lit "x") (lit "auto") (lit "vi")] true 4500 3 1)
       (fresh tt)
     = match translate (@accepting_new unit) identity_provider
               (static_languages []) ascii_lower
               (Request (lit "x") (lit "auto") (lit "vi") true 4500 3 1)
               (fresh tt) with
       | (Ok resp, w') => (Ok [translated resp], w')
       | (Raise e, w') => (Raise e, w')
       | (OutOfFuel, w') => (OutOfFuel, w')
       end.
Proof.
  assert (Hv : valid_request
                 (Request (lit "x") (lit "auto") (lit "vi") true 4500 3 1)).
  { unfold valid_request. simpl. repeat split; try lia; discriminate. }
  split; [exact Hv |].
  apply (@translate_batch_single _ unit (@accepting_new unit)
           identity_provider (static_languages []) ascii_lower
           (lit "x") (lit "auto") (lit "vi") true 4500 3 1 (fresh tt)).
  exact Hv.
Defined.

Lemma translate_failure_from_provider_witness :
  exists cause,
    HTTPException 500 (ProviderError 0) = HTTPException 500 cause
    /\ from_provider (@accepting_new nat) raising_provider cause.
Proof.
  apply (@translate_failure_from_provider _ nat (@accepting_new nat)
           raising_provider (static_languages []) ascii_lower
           (Request (lit "x") (lit "auto") (lit "vi") true 4500 0 1)
           (fresh 0%nat)
           (World 1%nat [Call (lit "auto") (lit "vi") (lit "x")] [] 1%nat)).
  - unfold valid_request. simpl. repeat split; try lia; discriminate.
  - vm_compute. reflexivity.
Defined.

Lemma chunk_text_sentences_only_witness :
  _chunk_text two_sentences 3 = Ok (sentence_pass 3 two_sentences)
  /\ Forall (fun c => len c <= 3) (sentence_pass 3 two_sentences)
  /\ concat (sentence_pass 3 two_sentences)
     = concat (map s_with_space (re_split_sentences two_sentences)).
Proof.
  apply (@chunk_text_sentences_only 3 two_sentences).
  - vm_compute. reflexivity.
  - apply Forall_forall. intros s Hin. vm_compute in Hin.
    destruct Hin as [H | [H | []]]; subst s; vm_compute; discriminate.
Defined.

End FurtherScenarios.
